(** * A chained hash table from strings to integers: model and properties

    Shallow embedding of [hash_table.c] / [hash_table.h].

    - An [unsigned int] is a [Z] in [0, 2^32); every operation of the
      source on it is written with its wrap-around.
    - A C string is the [string] of the characters before its terminator.
    - A bucket chain ([HT_Node*], linked through [next]) is the list of its
      entries from head to tail; the null pointer is the empty list.
    - Undefined behaviour of the source (null dereference, division by
      zero, out-of-bounds access, overflow of an [int] loop counter) is an
      explicit [Fault]. *)

From Stdlib Require Import ZArith Ascii String List Lia.
From stdpp Require Import base list strings pretty.

Local Open Scope string_scope.
Local Open Scope Z_scope.

(** ** Faults and the error monad *)

Inductive fault : Type :=
| NullDeref      (* a null pointer is dereferenced *)
| DivByZero      (* the right operand of [%] is zero *)
| OutOfBounds    (* [nodes] is indexed outside the allocation *)
| SignedOverflow. (* an [int] counter is incremented past [INT_MAX] *)

Inductive result (A : Type) : Type :=
| Ok (a : A)
| Fault (f : fault).

Arguments Ok {A} a.
Arguments Fault {A} f.

#[global] Instance result_ret : MRet result := fun A a => Ok a.

#[global] Instance result_bind : MBind result := fun A B f m =>
  match m with
  | Ok a => f a
  | Fault e => Fault e
  end.

(** ** Machine integers *)

Definition UINT_MODULUS : Z := 2 ^ 32.
Definition INT_MAX : Z := 2 ^ 31 - 1.
Definition UINT_MAX : Z := 2 ^ 32 - 1.

(** Conversion of an integer value to [unsigned int]. *)
Definition to_uint (z : Z) : Z := z mod UINT_MODULUS.

(** Conversion of an [unsigned int] to [int]: values above [INT_MAX] wrap
    to the negative numbers (what gcc, clang and msvc document). *)
Definition to_int (z : Z) : Z :=
  let u := z mod UINT_MODULUS in
  if u <=? INT_MAX then u else u - UINT_MODULUS.

Definition uint_add (a b : Z) : Z := to_uint (a + b).
Definition uint_mul (a b : Z) : Z := to_uint (a * b).

(** Whether plain [char] is signed is left to the platform (signed on x86,
    unsigned on ARM Linux); the hash reads the key through [char*]. *)
Class Platform : Type := { char_signed : bool }.

Definition signed_char_platform : Platform := {| char_signed := true |}.
Definition unsigned_char_platform : Platform := {| char_signed := false |}.

(** The code of a character as an unsigned byte. *)
Definition byte_value (c : ascii) : Z := Z.of_N (N_of_ascii c).

(** The value of a [char] object after integer promotion. *)
Definition char_value `{Platform} (c : ascii) : Z :=
  let b := byte_value c in
  if char_signed && (128 <=? b) then b - 256 else b.

(** [strcmp]: only the sign of the result is specified; the comparison is
    on unsigned bytes. *)
Definition strcmp (a b : string) : Z :=
  match String.compare a b with
  | Eq => 0
  | Lt => -1
  | Gt => 1
  end.

(** [strcpy] into a fresh buffer of [strlen(key) + 1] bytes: the copy holds
    the same characters. *)
Fixpoint strcpy (src : string) : string :=
  match src with
  | EmptyString => EmptyString
  | String c src' => String c (strcpy src')
  end.

(** ** The hashing function *)

Definition HASHPRIME : Z := 31.

Section Hash.
Context `{Platform}.

(** The [for] loop of [HT_hash]: [key] is what remains to be read and
    [hashval] the accumulator. *)
Fixpoint HT_hash_loop (key : string) (hashval : Z) : Z :=
  match key with
  | EmptyString => hashval
  | String c key' =>
      HT_hash_loop key'
        (uint_add (to_uint (char_value c)) (uint_mul (to_uint HASHPRIME) hashval))
  end.

Definition HT_hash (key : string) (size : Z) : result Z :=
  let hashval := HT_hash_loop key 0 in
  let usize := to_uint size in
  if usize =? 0 then Fault DivByZero else Ok (hashval mod usize).
End Hash.

(** The hash as the specification words it: a Horner fold over the
    character values, then the remainder by the capacity. *)
Definition horner_step (accumulator b : Z) : Z :=
  (b + 31 * accumulator) mod 2 ^ 32.

Definition horner (bytes : list Z) : Z := fold_left horner_step bytes 0.

Definition hash_spec `{Platform} (key : string) (capacity : Z) : Z :=
  horner (map char_value (list_ascii_of_string key)) mod capacity.

(** The sum of the characters of a key, each with the value it has as a
    [char]. *)
Definition key_sum `{Platform} (key : string) : Z :=
  foldr Z.add 0 (map char_value (list_ascii_of_string key)).



(** ** The table *)

(** One entry of a chain; the [next] link of the source is the tail of the
    list the entry sits in. *)
Record HT_Node : Type := { key : string; value : Z }.

Record HT_Ht : Type := { capacity : Z; nodes : list (list HT_Node) }.

(** A pointer to an entry of the table: the bucket and the position in its
    chain. [None] is the null pointer. *)
Definition HT_NodePtr : Type := option (nat * nat).

(** [h_table->nodes[i]] *)
Definition bucket (h_table : HT_Ht) (i : Z) : result (list HT_Node) :=
  match nodes h_table !! Z.to_nat i with
  | Some head => Ok head
  | None => Fault OutOfBounds
  end.

(** [h_table->nodes[i] = head] *)
Definition set_bucket (h_table : HT_Ht) (i : Z) (head : list HT_Node) : HT_Ht :=
  {| capacity := capacity h_table;
     nodes := <[Z.to_nat i := head]> (nodes h_table) |}.

(** [malloc] is taken to succeed; the loop sets the [size] slots to null.
    Its counter is an [int] compared with the unsigned [size]: for a size
    above [INT_MAX] the counter is incremented past [INT_MAX] before the
    loop can end. *)
Definition HT_create (size : Z) : result HT_Ht :=
  if INT_MAX <? size then Fault SignedOverflow
  else Ok {| capacity := size; nodes := replicate (Z.to_nat size) [] |}.

Fixpoint _HT_check (node : list HT_Node) (k : string) : Z :=
  match node with
  | [] => 0
  | n :: next => if strcmp (key n) k =? 0 then 1 else _HT_check next k
  end.

Fixpoint _HT_find (nodes : list HT_Node) (k : string) : result Z :=
  match nodes with
  | [] => Fault NullDeref
  | n :: next => if strcmp (key n) k =? 0 then Ok (value n) else _HT_find next k
  end.

(** The [for] loop of [_lookup]: [np] is the rest of the chain still to be
    visited, [pos] the number of entries already passed. *)
Fixpoint _lookup_loop (np : list HT_Node) (s : string) (pos : nat) : option nat :=
  match np with
  | [] => None
  | n :: next => if strcmp s (key n) =? 0 then Some pos else _lookup_loop next s (S pos)
  end.

(** The recursion of [_HT_remove_node] on [&(( *node)->next)]; the result is
    the chain that [*node] heads afterwards. *)
Fixpoint _HT_remove_node (node : list HT_Node) (k : string) : result (list HT_Node) :=
  match node with
  | [] => Fault NullDeref
  | prev :: rest =>
      if strcmp (key prev) k =? 0 then Ok []
      else
        match rest with
        | [] => Fault NullDeref
        | cur :: next =>
            if strcmp (key cur) k =? 0 then Ok (prev :: next)
            else rest' ← _HT_remove_node rest k; Ok (prev :: rest')
        end
  end.

Section Table.
Context `{Platform}.

Definition HT_check (h_table : HT_Ht) (k : string) : result Z :=
  hash_val ← HT_hash k (to_int (capacity h_table));
  head ← bucket h_table hash_val;
  Ok (_HT_check head k).

Definition HT_find (h_table : HT_Ht) (k : string) : result Z :=
  hash_val ← HT_hash k (to_int (capacity h_table));
  head ← bucket h_table hash_val;
  _HT_find head k.

Definition _lookup (h_table : HT_Ht) (s : string) : result HT_NodePtr :=
  hash_val ← HT_hash s (to_int (capacity h_table));
  head ← bucket h_table hash_val;
  Ok (pos ← _lookup_loop head s 0%nat; Some (Z.to_nat hash_val, pos)).

Definition HT_add (h_table : HT_Ht) (k : string) (v : Z) : result HT_Ht :=
  hash_val ← HT_hash k (to_int (capacity h_table));
  let new_key := strcpy k in
  head ← bucket h_table hash_val;
  let new_node := {| key := new_key; value := v |} in
  Ok (set_bucket h_table hash_val (new_node :: head)).

(** [node->value = new_value] through a pointer into the table. *)
Definition store_value (h_table : HT_Ht) (node : HT_NodePtr) (new_value : Z)
  : result HT_Ht :=
  match node with
  | None => Fault NullDeref
  | Some (b, pos) =>
      match nodes h_table !! b with
      | None => Fault OutOfBounds
      | Some head =>
          match head !! pos with
          | None => Fault NullDeref
          | Some n =>
              Ok {| capacity := capacity h_table;
                    nodes := <[b := <[pos := {| key := key n; value := new_value |}]> head]>
                               (nodes h_table) |}
          end
      end
  end.

Definition HT_change (h_table : HT_Ht) (k : string) (new_value : Z) : result HT_Ht :=
  node ← _lookup h_table k;
  store_value h_table node new_value.

Definition HT_remove (h_table : HT_Ht) (k : string) : result HT_Ht :=
  hash_val ← HT_hash k (to_int (capacity h_table));
  head ← bucket h_table hash_val;
  head' ← _HT_remove_node head k;
  Ok (set_bucket h_table hash_val head').

End Table.

(** A table as [HT_create] makes it and the operations keep it: a capacity
    that an [unsigned int] holds, not zero, and as many slots. *)
Definition HT_valid (h_table : HT_Ht) : Prop :=
  0 < capacity h_table <= UINT_MAX /\
  length (nodes h_table) = Z.to_nat (capacity h_table).

(** The slot a key is routed to. *)
Definition slot `{Platform} (h_table : HT_Ht) (k : string) : Z :=
  hash_spec k (capacity h_table).

(** [n] is the entry at position [i] of [chain], it carries the key [k], and
    no entry before it does. *)
Definition first_match (chain : list HT_Node) (k : string) (i : nat) (n : HT_Node) : Prop :=
  chain !! i = Some n /\ key n = k /\
  forall j m, (j < i)%nat -> chain !! j = Some m -> key m <> k.

(** Every entry sits in the slot its key hashes to. *)
Definition HT_routed `{Platform} (h_table : HT_Ht) : Prop :=
  forall b head n,
    nodes h_table !! b = Some head -> n ∈ head ->
    Z.to_nat (slot h_table (key n)) = b.

(** The slots hold the keys of [ks], each in the slot it hashes to, the
    latest of [ks] first, and nothing else. *)
Definition HT_holds `{Platform} (h_table : HT_Ht) (ks : list string) : Prop :=
  forall b head,
    nodes h_table !! b = Some head ->
    map key head = reverse (filter (fun k => Z.to_nat (slot h_table k) = b) ks).

(** ** Printing

    Standard output is the list of the texts that the successive calls of
    [printf] write. *)

Definition newline : string := String (ascii_of_nat 10) EmptyString.
Definition dquote : string := String (ascii_of_nat 34) EmptyString.

(** The line of one entry: the key between double quotes inside braces, a
    colon and the value in decimal. *)
Definition print_node (n : HT_Node) : string :=
  "{" +:+ dquote +:+ key n +:+ dquote +:+ ": " +:+ pretty (value n) +:+ "}" +:+ newline.

Definition print_bucket (x : Z) : string :=
  "=====BUCKET " +:+ pretty x +:+ "=====" +:+ newline.

Definition print_empty : string := "{{{EMPTY}}}" +:+ newline.

Fixpoint _HT_print (node : list HT_Node) : list string :=
  match node with
  | [] => []
  | n :: next => print_node n :: _HT_print next
  end.

(** [i++] on an [int]. *)
Definition int_incr (i : Z) : result Z :=
  if i <? INT_MAX then Ok (i + 1) else Fault SignedOverflow.

(** The [for] loop of [HT_print]: [x] is the counter, [remaining] the number
    of iterations left before [x] reaches the capacity. The counter is an
    [int] compared with the unsigned capacity; it stays within [INT_MAX]
    for every capacity up to [INT_MAX]. *)
Fixpoint HT_print_loop (h_table : HT_Ht) (remaining : nat) (x : Z) : result (list string) :=
  match remaining with
  | O => Ok []
  | S remaining' =>
      head ← bucket h_table x;
      let out :=
        print_bucket x ::
        match head with
        | [] => [print_empty]
        | _ :: _ => _HT_print head
        end in
      x' ← int_incr x;
      rest ← HT_print_loop h_table remaining' x';
      Ok (out ++ rest)%list
  end.

Definition HT_print (h_table : HT_Ht) : result (list string) :=
  HT_print_loop h_table (Z.to_nat (capacity h_table)) 0.

(** ** The test helpers of [tester.c]

    What [rand] returns is not modelled: the arrays that [_random_keys] and
    [_random_values] fill are parameters. An assertion of the test framework
    is the boolean it is given. *)

(** [a[i]] on an array of [length a] cells. *)
Definition array_get {A : Type} (a : list A) (i : Z) : result A :=
  if i <? 0 then Fault OutOfBounds
  else
    match a !! Z.to_nat i with
    | Some x => Ok x
    | None => Fault OutOfBounds
    end.

(** The loop of [_is_inside] runs [amount] times and reads [keys[0]] each
    time. *)
Fixpoint _is_inside_loop (k : string) (keys : list string) (remaining : nat) : result Z :=
  match remaining with
  | O => Ok 0
  | S remaining' =>
      k0 ← array_get keys 0;
      if strcmp k k0 =? 0 then Ok 1 else _is_inside_loop k keys remaining'
  end.

Definition _is_inside (k : string) (keys : list string) (amount : Z) : result Z :=
  _is_inside_loop k keys (Z.to_nat amount).

Record rand_ht : Type := {
  h_table : HT_Ht;
  keys : list string;
  num_keys : Z;
  key_size : Z;
  values : list Z
}.

Section Tester.
Context `{Platform}.

(** The loop of [_random_ht] that adds [keys[i]] with [values[i]]. Its
    counter is an [int] compared with the unsigned [amount_keys]. *)
Fixpoint _random_ht_loop (t : HT_Ht) (ks : list string) (vs : list Z)
    (remaining : nat) (i : Z) : result HT_Ht :=
  match remaining with
  | O => Ok t
  | S remaining' =>
      k ← array_get ks i;
      v ← array_get vs i;
      t' ← HT_add t k v;
      i' ← int_incr i;
      _random_ht_loop t' ks vs remaining' i'
  end.

Definition _random_ht (size amount_keys key_size : Z)
    (random_keys : list string) (random_values : list Z) : result rand_ht :=
  t ← HT_create size;
  t' ← _random_ht_loop t random_keys random_values (Z.to_nat amount_keys) 0;
  Ok {| h_table := t'; keys := random_keys; num_keys := to_int amount_keys;
        key_size := key_size; values := random_values |}.

(** The loop of [_test_find]; the result lists the assertions in order. *)
Fixpoint _test_find_loop (ht_rand : rand_ht) (remaining : nat) (i : Z)
  : result (list bool) :=
  match remaining with
  | O => Ok []
  | S remaining' =>
      k ← array_get (keys ht_rand) i;
      expected_val ← HT_find (h_table ht_rand) k;
      v ← array_get (values ht_rand) i;
      rest ← _test_find_loop ht_rand remaining' (i + 1);
      Ok ((expected_val =? v) :: rest)
  end.

Definition _test_find (size amount_keys key_size : Z)
    (random_keys : list string) (random_values : list Z) : result (list bool) :=
  ht_rand ← _random_ht (to_uint size) (to_uint amount_keys) key_size
              random_keys random_values;
  _test_find_loop ht_rand (Z.to_nat amount_keys) 0.

(** The first loop of [test_remove]: each key is removed, then asserted
    absent. The result is the table afterwards and the assertions. *)
Fixpoint test_remove_loop (t : HT_Ht) (ks : list string) (remaining : nat) (i : Z)
  : result (HT_Ht * list bool) :=
  match remaining with
  | O => Ok (t, [])
  | S remaining' =>
      k ← array_get ks i;
      t' ← HT_remove t k;
      c ← HT_check t' k;
      r ← test_remove_loop t' ks remaining' (i + 1);
      Ok (r.1, (c =? 0) :: r.2)
  end.

(** The loop of [test_change]: each key is changed, then read back. *)
Fixpoint test_change_loop (t : HT_Ht) (ks : list string) (new_values : list Z)
    (remaining : nat) (i : Z) : result (HT_Ht * list bool) :=
  match remaining with
  | O => Ok (t, [])
  | S remaining' =>
      k ← array_get ks i;
      v ← array_get new_values i;
      t' ← HT_change t k v;
      found ← HT_find t' k;
      r ← test_change_loop t' ks new_values remaining' (i + 1);
      Ok (r.1, (found =? v) :: r.2)
  end.

End Tester.

(** ** The table in memory

    A second model, with the pointers of the source: it is the one in which
    [HT_destroy] and the calls of [malloc] and [free] can be followed. The
    heap is the sequence of the blocks allocated so far; [malloc] appends a
    block and never hands an address out twice, [free] marks the block
    released, and an access to a released or foreign block is a fault. *)

Abbreviation loc := nat (only parsing).

Inductive block : Type :=
| BTable (capacity : Z) (nodes : loc)              (* a [struct HT_ht] *)
| BArray (slots : list (option loc))               (* the array [nodes] *)
| BNode (next : option loc) (key : loc) (value : Z) (* a [struct HT_node] *)
| BString (s : string).                            (* the characters of a key *)

Abbreviation heap := (list (option block)) (only parsing).

Inductive mem_fault : Type :=
| Crash (f : fault)
| InvalidAccess (l : loc)   (* a read or write outside a live block *)
| InvalidFree (l : loc).    (* [free] of what is not a live block *)

(** What a run in memory ends with. [OutOfFuel] is not a behaviour of the
    source: it marks a recursion cut short by the model. *)
Inductive outcome (A : Type) : Type :=
| Done (a : A)
| Crashed (f : mem_fault)
| OutOfFuel.

Arguments Done {A} a.
Arguments Crashed {A} f.
Arguments OutOfFuel {A}.

#[global] Instance outcome_ret : MRet outcome := fun A a => Done a.

#[global] Instance outcome_bind : MBind outcome := fun A B f m =>
  match m with
  | Done a => f a
  | Crashed e => Crashed e
  | OutOfFuel => OutOfFuel
  end.

Definition lift_result {A : Type} (r : result A) : outcome A :=
  match r with
  | Ok a => Done a
  | Fault f => Crashed (Crash f)
  end.

Definition malloc (h : heap) (b : block) : loc * heap :=
  (length h, (h ++ [Some b])%list).

Definition load (h : heap) (l : loc) : outcome block :=
  match h !! l with
  | Some (Some b) => Done b
  | _ => Crashed (InvalidAccess l)
  end.

Definition store (h : heap) (l : loc) (b : block) : outcome heap :=
  match h !! l with
  | Some (Some _) => Done (<[l := Some b]> h)
  | _ => Crashed (InvalidAccess l)
  end.

Definition free (h : heap) (l : loc) : outcome heap :=
  match h !! l with
  | Some (Some _) => Done (<[l := None]> h)
  | _ => Crashed (InvalidFree l)
  end.

Definition load_table (h : heap) (l : loc) : outcome (Z * loc) :=
  b ← load h l;
  match b with
  | BTable c arr => Done (c, arr)
  | _ => Crashed (InvalidAccess l)
  end.

Definition load_array (h : heap) (l : loc) : outcome (list (option loc)) :=
  b ← load h l;
  match b with
  | BArray slots => Done slots
  | _ => Crashed (InvalidAccess l)
  end.

Definition load_node (h : heap) (l : loc) : outcome (option loc * loc * Z) :=
  b ← load h l;
  match b with
  | BNode next k v => Done (next, k, v)
  | _ => Crashed (InvalidAccess l)
  end.

(** [h_table->nodes[i]] through the pointer [h_table]. *)
Definition load_slot (h : heap) (arr : loc) (i : Z) : outcome (option loc) :=
  slots ← load_array h arr;
  match slots !! Z.to_nat i with
  | Some p => Done p
  | None => Crashed (Crash OutOfBounds)
  end.

(** [HT_create]: the struct, then the array, whose slots the loop sets to
    null. For a size above [INT_MAX] the [int] counter of that loop is
    incremented past [INT_MAX]. *)
Definition HT_create_mem (h : heap) (size : Z) : outcome (loc * heap) :=
  let (hash_table, h1) := malloc h (BTable size 0%nat) in
  let (arr, h2) := malloc h1 (BArray (replicate (Z.to_nat size) None)) in
  h3 ← store h2 hash_table (BTable size arr);
  if INT_MAX <? size then Crashed (Crash SignedOverflow)
  else Done (hash_table, h3).

(** [_HT_destroy_nodes]: the successor is read before the node is freed. *)
Fixpoint _HT_destroy_nodes_mem (fuel : nat) (h : heap) (node : option loc)
  : outcome heap :=
  match node with
  | None => Done h
  | Some a =>
      match fuel with
      | O => OutOfFuel
      | S fuel' =>
          n ← load_node h a;
          h1 ← free h n.1.2;
          h2 ← free h1 a;
          _HT_destroy_nodes_mem fuel' h2 n.1.1
      end
  end.

(** The [for] loop of [HT_destroy]; the chain of a slot has fewer nodes than
    the heap has blocks, which is the fuel given to the recursion. The
    counter is an [int] compared with the unsigned capacity. *)
Fixpoint HT_destroy_loop (h : heap) (h_table : loc) (remaining : nat) (cur : Z)
  : outcome heap :=
  match remaining with
  | O => Done h
  | S remaining' =>
      t ← load_table h h_table;
      p ← load_slot h t.2 cur;
      h1 ← match p with
           | None => Done h
           | Some _ => _HT_destroy_nodes_mem (length h) h p
           end;
      cur' ← lift_result (int_incr cur);
      HT_destroy_loop h1 h_table remaining' cur'
  end.

Definition HT_destroy_mem (h : heap) (h_table : loc) : outcome heap :=
  t ← load_table h h_table;
  h1 ← HT_destroy_loop h h_table (Z.to_nat t.1) 0;
  free h1 h_table.







Section Memory.
Context `{Platform}.

Definition HT_add_mem (h : heap) (h_table : loc) (k : string) (v : Z) : outcome heap :=
  t ← load_table h h_table;
  hash_val ← lift_result (HT_hash k (to_int t.1));
  let (new_node, h1) := malloc h (BNode None 0%nat 0) in
  let (new_key, h2) := malloc h1 (BString (strcpy k)) in
  head ← load_slot h2 t.2 hash_val;
  h3 ← store h2 new_node (BNode head new_key v);
  slots ← load_array h3 t.2;
  store h3 t.2 (BArray (<[Z.to_nat hash_val := Some new_node]> slots)).


End Memory.

(** The chain that starts at [p] in [h] holds the entries [l] in order; its
    nodes and key strings are the blocks [cells]. *)
Fixpoint chain_at (h : heap) (p : option loc) (l : list HT_Node) (cells : list loc)
  : Prop :=
  match l with
  | [] => p = None /\ cells = []
  | n :: l' =>
      exists a ka next cells',
        p = Some a /\ cells = a :: ka :: cells' /\
        h !! a = Some (Some (BNode next ka (value n))) /\
        h !! ka = Some (Some (BString (key n))) /\
        chain_at h next l' cells'
  end.

(** The struct at [p] in [h] is the table [t]: its array is the block [arr],
    slot [i] of the array starts the chain [nodes t !! i], and no block
    serves twice. [cellss] lists the blocks of each chain. *)
Definition table_at (h : heap) (p : loc) (t : HT_Ht) (arr : loc)
    (cellss : list (list loc)) : Prop :=
  exists slots,
    h !! p = Some (Some (BTable (capacity t) arr)) /\
    h !! arr = Some (Some (BArray slots)) /\
    length slots = length (nodes t) /\
    length cellss = length (nodes t) /\
    (forall i q l cells,
       slots !! i = Some q -> nodes t !! i = Some l -> cellss !! i = Some cells ->
       chain_at h q l cells) /\
    NoDup (p :: arr :: concat cellss).

(** The heap with the blocks [cells] released. *)
Definition release (cells : list loc) (h : heap) : heap :=
  imap (fun l b => if bool_decide (l ∈ cells) then None else b) h.

(** ** Example tables *)

(** A table of one slot in memory: the struct, the array, and the chain of
    [b] then [a], as [HT_create] and two calls of [HT_add] lay them out. *)
Definition demo_heap : list (option block) :=
  [Some (BTable 1 1%nat); Some (BArray [Some 4%nat]);
   Some (BNode None 3%nat 1); Some (BString "a");
   Some (BNode (Some 2%nat) 5%nat 2); Some (BString "b")].

Definition demo_heap_table : HT_Ht :=
  {| capacity := 1;
     nodes := [[{| key := "b"; value := 2 |}; {| key := "a"; value := 1 |}]] |}.


(** Two slots; with capacity 2 the keys [b] and [d] hash to 0, [a] and [c]
    to 1. The key [a] is stored twice. *)
Definition demo_table : HT_Ht :=
  {| capacity := 2;
     nodes := [[{| key := "b"; value := 2 |}; {| key := "d"; value := 4 |}];
               [{| key := "a"; value := 1 |}; {| key := "c"; value := 3 |};
                {| key := "a"; value := 5 |}]] |}.

(** ** Machine arithmetic *)

Lemma UINT_MODULUS_pos : 0 < UINT_MODULUS.
Proof. reflexivity. Qed.

Lemma to_uint_range z : 0 <= to_uint z < UINT_MODULUS.
Proof. unfold to_uint. apply Z.mod_pos_bound, UINT_MODULUS_pos. Qed.

Lemma to_uint_small z : 0 <= z <= UINT_MAX -> to_uint z = z.
Proof.
  intros Hz. unfold to_uint. apply Z.mod_small.
  unfold UINT_MAX, UINT_MODULUS in *. lia.
Qed.

(** An [unsigned int] passed where an [int] is expected and converted back
    by the arithmetic of [HT_hash] is the value it was. *)
Lemma to_uint_to_int z : 0 <= z <= UINT_MAX -> to_uint (to_int z) = z.
Proof.
  intros Hz. unfold to_int. rewrite (Z.mod_small z UINT_MODULUS).
  - destruct (z <=? INT_MAX) eqn:E.
    + now apply to_uint_small.
    + unfold to_uint.
      replace (z - UINT_MODULUS) with (z + (-1) * UINT_MODULUS) by ring.
      rewrite Z.mod_add by (pose proof UINT_MODULUS_pos; lia).
      apply Z.mod_small. unfold UINT_MAX, UINT_MODULUS in *. lia.
  - unfold UINT_MAX, UINT_MODULUS in *. lia.
Qed.

Lemma to_int_small z : 0 <= z <= INT_MAX -> to_int z = z.
Proof.
  intros Hz. unfold to_int. rewrite Z.mod_small.
  - destruct (Z.leb_spec z INT_MAX); [reflexivity | lia].
  - unfold INT_MAX, UINT_MODULUS in *. lia.
Qed.

(** One iteration of the loop of [HT_hash], with the conversions of the
    source, is one Horner step. *)
Lemma hash_step_horner c hashval :
  uint_add (to_uint c) (uint_mul (to_uint HASHPRIME) hashval) = horner_step hashval c.
Proof.
  unfold uint_add, uint_mul, to_uint, horner_step, HASHPRIME, UINT_MODULUS.
  rewrite (Z.mod_small 31) by lia.
  rewrite <- Zplus_mod. reflexivity.
Qed.

Lemma byte_value_range c : 0 <= byte_value c < 256.
Proof.
  unfold byte_value. pose proof (N_ascii_bounded c) as Hc. lia.
Qed.

(** Where [char] is unsigned, and for every 7-bit character anywhere, the
    value of a [char] is the byte itself. *)
Lemma char_value_byte `{Platform} c :
  char_signed = false \/ byte_value c < 128 -> char_value c = byte_value c.
Proof.
  unfold char_value. intros [-> | Hc]; [reflexivity |].
  destruct (Z.leb_spec 128 (byte_value c)); [lia |].
  now rewrite andb_false_r.
Qed.

Lemma char_value_range `{Platform} c : -128 <= char_value c < 256.
Proof.
  unfold char_value. pose proof (byte_value_range c).
  destruct char_signed; cbn; [destruct (Z.leb_spec 128 (byte_value c)) |]; lia.
Qed.

Lemma strcpy_eq s : strcpy s = s.
Proof. induction s as [| c s IH]; cbn; [reflexivity | now rewrite IH]. Qed.

Lemma string_compare_refl s : String.compare s s = Eq.
Proof.
  pose proof (String.compare_antisym s s) as Ha.
  destruct (String.compare s s); [reflexivity | discriminate Ha ..].
Qed.

Lemma strcmp_eq a b : strcmp a b = 0 <-> a = b.
Proof.
  unfold strcmp. split.
  - intros Hc. apply String.compare_eq_iff.
    destruct (String.compare a b); [reflexivity | discriminate Hc ..].
  - intros ->. now rewrite string_compare_refl.
Qed.

Lemma strcmp_eqb a b : (strcmp a b =? 0) = bool_decide (a = b).
Proof.
  destruct (Z.eqb_spec (strcmp a b) 0) as [E | E]; rewrite strcmp_eq in E.
  - now rewrite bool_decide_eq_true_2.
  - now rewrite bool_decide_eq_false_2.
Qed.

(** ** The hashing function *)

Section HashFacts.
Context `{Platform}.

Lemma HT_hash_loop_fold key hashval :
  HT_hash_loop key hashval =
  fold_left horner_step (map char_value (list_ascii_of_string key)) hashval.
Proof.
  revert hashval. induction key as [| c key IH]; intros hashval; cbn.
  - reflexivity.
  - rewrite IH, hash_step_horner. reflexivity.
Qed.

Lemma HT_hash_loop_range key hashval :
  0 <= hashval < UINT_MODULUS -> 0 <= HT_hash_loop key hashval < UINT_MODULUS.
Proof.
  revert hashval. induction key as [| c key IH]; intros hashval Hh; cbn.
  - exact Hh.
  - apply IH. unfold uint_add. apply to_uint_range.
Qed.

(** What [HT_hash] returns for any [size] whose conversion to unsigned is
    not zero. *)
Lemma HT_hash_unsigned key size :
  to_uint size <> 0 ->
  HT_hash key size = Ok (hash_spec key (to_uint size)).
Proof.
  intros Hs. unfold HT_hash, hash_spec, horner.
  destruct (Z.eqb_spec (to_uint size) 0); [contradiction |].
  now rewrite HT_hash_loop_fold.
Qed.

Lemma HT_hash_zero key size : to_uint size = 0 -> HT_hash key size = Fault DivByZero.
Proof. intros Hs. unfold HT_hash. now rewrite Hs. Qed.

Lemma hash_spec_range key c : 0 < c -> 0 <= hash_spec key c < c.
Proof. intros Hc. unfold hash_spec. now apply Z.mod_pos_bound. Qed.

(** The bucket of a key in a table of capacity [c]. *)
Lemma HT_hash_capacity key c :
  0 < c <= UINT_MAX -> HT_hash key (to_int c) = Ok (hash_spec key c).
Proof.
  intros Hc. rewrite HT_hash_unsigned; rewrite to_uint_to_int; try lia.
  reflexivity.
Qed.

(** The characters of a key enter the hash as its bytes where [char] is
    unsigned, and anywhere when the key is 7-bit. *)
Lemma map_char_value_bytes (cs : list ascii) :
  char_signed = false \/ Forall (fun ch => byte_value ch < 128) cs ->
  map char_value cs = map byte_value cs.
Proof.
  intros Hcs. induction cs as [| ch cs IH]; [reflexivity |].
  cbn [map]. f_equal.
  - apply char_value_byte. destruct Hcs as [Hu | Hall]; [now left | right].
    now inversion Hall.
  - apply IH. destruct Hcs as [Hu | Hall]; [now left | right].
    now inversion Hall.
Qed.

End HashFacts.

(** Against C5 as stated. The key is the two bytes [C3 A9] (the UTF-8
    encoding of e with an acute accent) and the capacity is 1000. Where
    [char] is signed, [*key] is -61, then -87, and [HT_hash] returns 318;
    the Horner fold over the bytes 195 and 169 gives 6214, and 214 after the
    reduction. *)
Theorem HT_hash_not_horner_of_bytes :
  let k := String (ascii_of_nat 195) (String (ascii_of_nat 169) EmptyString) in
  map byte_value (list_ascii_of_string k) = [195; 169] /\
  @HT_hash signed_char_platform k 1000 = Ok 318 /\
  horner (map byte_value (list_ascii_of_string k)) mod 1000 = 214 /\
  @HT_hash signed_char_platform k 1000
    <> Ok (horner (map byte_value (list_ascii_of_string k)) mod 1000).
Proof.
  cbv zeta. split; [reflexivity |]. split; [reflexivity |].
  split; [reflexivity |]. vm_compute. discriminate.
Qed.

(** C5 (amended). For every key and every capacity from 1 up (an [int]),
    [HT_hash key capacity] is the Horner fold over the characters of the key
    in order, from accumulator 0 with [accumulator = b + 31 * accumulator]
    modulo [2^32] at each step, reduced modulo the capacity, where [b] is
    the value the character has as a plain [char]: the byte itself, or the
    byte minus 256 for a byte from [0x80] up where [char] is signed. Where
    [char] is unsigned, and anywhere for a key whose bytes are all below
    [0x80], that is the fold over the bytes of the key. The empty string
    hashes to 0. *)
Theorem HT_hash_is_horner `{Platform} (k : string) (c : Z) :
  1 <= c <= INT_MAX ->
  HT_hash k c =
    Ok (horner
          (map (fun ch => if char_signed && (128 <=? byte_value ch)
                          then byte_value ch - 256 else byte_value ch)
               (list_ascii_of_string k)) mod c) /\
  (char_signed = false \/
   Forall (fun ch => byte_value ch < 128) (list_ascii_of_string k) ->
   HT_hash k c = Ok (horner (map byte_value (list_ascii_of_string k)) mod c)) /\
  HT_hash "" c = Ok 0.
Proof.
  intros Hc.
  assert (Hu : to_uint c = c)
    by (apply to_uint_small; unfold INT_MAX, UINT_MAX in *; lia).
  split; [| split].
  - rewrite HT_hash_unsigned by lia. unfold hash_spec. now rewrite Hu.
  - intros Hk. rewrite HT_hash_unsigned by lia. unfold hash_spec.
    now rewrite Hu, (map_char_value_bytes _ Hk).
  - rewrite HT_hash_unsigned by lia. unfold hash_spec, horner. cbn.
    rewrite Hu, Z.mod_0_l by lia. reflexivity.
Qed.

Lemma HT_hash_is_horner_witness :
  @HT_hash signed_char_platform "bob" 10 = Ok (horner [98; 111; 98] mod 10) /\
  @HT_hash signed_char_platform "bob" 10
    = Ok (horner (map byte_value (list_ascii_of_string "bob")) mod 10) /\
  @HT_hash signed_char_platform "" 10 = Ok 0.
Proof.
  destruct (@HT_hash_is_horner signed_char_platform "bob" 10) as (Hfold & Hbytes & Hempty).
  - unfold INT_MAX. lia.
  - split; [exact Hfold |]. split; [| exact Hempty].
    apply Hbytes. right. repeat constructor.
Defined.

(** C6. For every key and every capacity [c > 0], [HT_hash] returns an index
    [h] with [0 <= h < c]. *)
Theorem HT_hash_in_range `{Platform} (k : string) (c : Z) :
  0 < c <= INT_MAX ->
  exists h, HT_hash k c = Ok h /\ 0 <= h < c.
Proof.
  intros Hc.
  assert (Hu : to_uint c = c)
    by (apply to_uint_small; unfold INT_MAX, UINT_MAX in *; lia).
  exists (hash_spec k c). split.
  - rewrite HT_hash_unsigned by lia. now rewrite Hu.
  - apply hash_spec_range. lia.
Qed.

Lemma HT_hash_in_range_witness :
  exists h, @HT_hash unsigned_char_platform "alice" 7 = Ok h /\ 0 <= h < 7.
Proof.
  apply (@HT_hash_in_range unsigned_char_platform "alice" 7).
  unfold INT_MAX. lia.
Defined.

(** ** Chains *)

Lemma first_match_head n rest k : key n = k -> first_match (n :: rest) k 0 n.
Proof. intros Hk. repeat split; [exact Hk | intros j m Hj; lia]. Qed.

Lemma first_match_tail m rest k i n :
  key m <> k -> first_match rest k i n -> first_match (m :: rest) k (S i) n.
Proof.
  intros Hm (Hi & Hk & Hbefore). repeat split; [exact Hi | exact Hk |].
  intros [| j] m' Hj Hl; cbn in Hl.
  - now injection Hl as <-.
  - apply (Hbefore j); [lia | exact Hl].
Qed.

Lemma first_match_inv m rest k i n :
  first_match (m :: rest) k i n ->
  (i = 0%nat /\ n = m /\ key m = k) \/
  (exists i', i = S i' /\ key m <> k /\ first_match rest k i' n).
Proof.
  intros (Hi & Hk & Hbefore). destruct i as [| i'].
  - left. cbn in Hi. injection Hi as <-. auto.
  - right. exists i'. split; [reflexivity |]. split.
    + apply (Hbefore 0%nat); [lia | reflexivity].
    + repeat split; [exact Hi | exact Hk |].
      intros j m' Hj Hl. apply (Hbefore (S j)); [lia | exact Hl].
Qed.

Lemma first_match_nil k i n : ~ first_match [] k i n.
Proof. intros (Hi & _). discriminate Hi. Qed.

Lemma first_match_unique chain k i n i' n' :
  first_match chain k i n -> first_match chain k i' n' -> i = i' /\ n = n'.
Proof.
  intros (Hi & Hk & Hb) (Hi' & Hk' & Hb').
  assert (i = i') as <-.
  { destruct (Nat.lt_trichotomy i i') as [Hlt | [Heq | Hgt]]; [| exact Heq |].
    - exfalso. exact (Hb' i n Hlt Hi Hk).
    - exfalso. exact (Hb i' n' Hgt Hi' Hk'). }
  split; [reflexivity | congruence].
Qed.

(** The three scans test the head of the chain the same way. *)
Lemma _HT_check_cons n next k :
  _HT_check (n :: next) k = if bool_decide (key n = k) then 1 else _HT_check next k.
Proof. cbn. now rewrite strcmp_eqb. Qed.

Lemma _HT_find_cons n next k :
  _HT_find (n :: next) k = if bool_decide (key n = k) then Ok (value n) else _HT_find next k.
Proof. cbn. now rewrite strcmp_eqb. Qed.

Lemma _lookup_loop_cons n next s pos :
  _lookup_loop (n :: next) s pos =
  if bool_decide (key n = s) then Some pos else _lookup_loop next s (S pos).
Proof.
  cbn. rewrite strcmp_eqb.
  destruct (decide (key n = s)) as [E | E].
  - rewrite !bool_decide_eq_true_2; congruence.
  - rewrite !bool_decide_eq_false_2; congruence.
Qed.

Lemma _HT_check_bool chain k : _HT_check chain k = 0 \/ _HT_check chain k = 1.
Proof.
  induction chain as [| n next IH]; [now left |].
  rewrite _HT_check_cons. case_bool_decide; [now right | exact IH].
Qed.

Lemma _HT_check_found chain k :
  _HT_check chain k = 1 <-> exists i n, first_match chain k i n.
Proof.
  induction chain as [| m rest IH].
  - split; [discriminate |]. intros (i & n & Hm). now apply first_match_nil in Hm.
  - rewrite _HT_check_cons. case_bool_decide as Hk.
    + split; [| reflexivity]. intros _. exists 0%nat, m. now apply first_match_head.
    + rewrite IH. split.
      * intros (i & n & Hm). exists (S i), n. now apply first_match_tail.
      * intros (i & n & Hm).
        apply first_match_inv in Hm as [(_ & _ & Hk') | (i' & _ & _ & Hm)];
          [contradiction | eauto].
Qed.

Lemma _HT_check_elem chain k : _HT_check chain k = 1 <-> k ∈ map key chain.
Proof.
  induction chain as [| m rest IH]; cbn [map].
  - split; [discriminate | intros Hin; inversion Hin].
  - rewrite _HT_check_cons, elem_of_cons. case_bool_decide as Hk.
    + split; [intros _; now left | reflexivity].
    + rewrite IH. split; [now right | intros [E | Hin]; congruence].
Qed.

Lemma _HT_find_first chain k i n :
  first_match chain k i n -> _HT_find chain k = Ok (value n).
Proof.
  revert i. induction chain as [| m rest IH]; intros i Hm.
  - now apply first_match_nil in Hm.
  - rewrite _HT_find_cons.
    apply first_match_inv in Hm as [(_ & -> & Hk) | (i' & _ & Hk & Hm)].
    + now rewrite bool_decide_eq_true_2.
    + rewrite bool_decide_eq_false_2 by exact Hk. exact (IH i' Hm).
Qed.

Lemma _HT_find_absent chain k :
  _HT_check chain k = 0 -> _HT_find chain k = Fault NullDeref.
Proof.
  induction chain as [| m rest IH]; [reflexivity |].
  rewrite _HT_check_cons, _HT_find_cons. case_bool_decide; [discriminate | exact IH].
Qed.

Lemma _lookup_loop_first np s pos i n :
  first_match np s i n -> _lookup_loop np s pos = Some (pos + i)%nat.
Proof.
  revert pos i. induction np as [| m rest IH]; intros pos i Hm.
  - now apply first_match_nil in Hm.
  - rewrite _lookup_loop_cons.
    apply first_match_inv in Hm as [(-> & -> & Hk) | (i' & -> & Hk & Hm)].
    + rewrite bool_decide_eq_true_2 by exact Hk. f_equal. lia.
    + rewrite bool_decide_eq_false_2 by exact Hk.
      rewrite (IH (S pos) i' Hm). f_equal. lia.
Qed.

Lemma _lookup_loop_found np s pos p :
  _lookup_loop np s pos = Some p ->
  exists i n, p = (pos + i)%nat /\ first_match np s i n.
Proof.
  revert pos. induction np as [| m rest IH]; intros pos; [discriminate |].
  rewrite _lookup_loop_cons. case_bool_decide as Hk.
  - intros [= <-]. exists 0%nat, m. split; [lia | now apply first_match_head].
  - intros Hl. destruct (IH _ Hl) as (i & n & -> & Hm).
    exists (S i), n. split; [lia | now apply first_match_tail].
Qed.

Lemma _lookup_loop_absent np s pos :
  _lookup_loop np s pos = None <-> _HT_check np s = 0.
Proof.
  revert pos. induction np as [| m rest IH]; intros pos; [easy |].
  rewrite _lookup_loop_cons, _HT_check_cons. case_bool_decide; [easy | apply IH].
Qed.

(** *** Removal from a chain *)

Lemma _HT_remove_node_cons prev rest k :
  _HT_remove_node (prev :: rest) k =
  if bool_decide (key prev = k) then Ok []
  else
    match rest with
    | [] => Fault NullDeref
    | cur :: next =>
        if bool_decide (key cur = k) then Ok (prev :: next)
        else rest' ← _HT_remove_node rest k; Ok (prev :: rest')
    end.
Proof. destruct rest as [| cur next]; cbn; rewrite !strcmp_eqb; reflexivity. Qed.

(** A match at the head: the node is freed and [*node] is set to null, so
    the chain that [*node] heads afterwards is empty. *)
Lemma _HT_remove_node_head n rest k :
  key n = k -> _HT_remove_node (n :: rest) k = Ok [].
Proof.
  intros Hk. rewrite _HT_remove_node_cons. now rewrite bool_decide_eq_true_2.
Qed.

(** A first match past the head: that entry alone leaves the chain. *)
Lemma _HT_remove_node_interior chain k i n :
  first_match chain k (S i) n -> _HT_remove_node chain k = Ok (delete (S i) chain).
Proof.
  revert i. induction chain as [| prev rest IH]; intros i Hm.
  - now apply first_match_nil in Hm.
  - apply first_match_inv in Hm as [(Hi & _) | (i' & [= <-] & Hprev & Hm)];
      [discriminate |].
    rewrite _HT_remove_node_cons, bool_decide_eq_false_2 by exact Hprev.
    destruct rest as [| cur next]; [now apply first_match_nil in Hm |].
    pose proof Hm as Hm'.
    apply first_match_inv in Hm' as [(-> & _ & Hcur) | (i' & -> & Hcur & _)].
    + now rewrite bool_decide_eq_true_2.
    + rewrite bool_decide_eq_false_2 by exact Hcur.
      rewrite (IH i' Hm). reflexivity.
Qed.

Lemma _HT_remove_node_absent chain k :
  _HT_check chain k = 0 -> _HT_remove_node chain k = Fault NullDeref.
Proof.
  induction chain as [| prev rest IH]; [reflexivity |].
  rewrite _HT_check_cons, _HT_remove_node_cons.
  case_bool_decide; [discriminate |]. intros Hrest.
  destruct rest as [| cur next]; [reflexivity |].
  rewrite (IH Hrest). rewrite _HT_check_cons in Hrest.
  case_bool_decide; [discriminate | reflexivity].
Qed.

Lemma _HT_remove_node_present chain k :
  _HT_check chain k = 1 ->
  exists chain', _HT_remove_node chain k = Ok chain'.
Proof.
  intros Hc. apply _HT_check_found in Hc as (i & n & Hm). destruct i as [| i].
  - destruct chain as [| m rest]; [now apply first_match_nil in Hm |].
    apply first_match_inv in Hm as [(_ & _ & Hk) | (i' & Hi & _)]; [| discriminate].
    exists []. now apply _HT_remove_node_head.
  - eexists. exact (_HT_remove_node_interior _ _ _ _ Hm).
Qed.

(** ** Tables *)

Lemma HT_create_ok size :
  size <= INT_MAX ->
  HT_create size = Ok {| capacity := size; nodes := replicate (Z.to_nat size) [] |}.
Proof.
  intros Hs. unfold HT_create. destruct (Z.ltb_spec INT_MAX size); [lia | reflexivity].
Qed.

(** Above [INT_MAX] the counter of the loop overflows. *)
Lemma HT_create_overflow size :
  INT_MAX < size -> HT_create size = Fault SignedOverflow.
Proof.
  intros Hs. unfold HT_create. destruct (Z.ltb_spec INT_MAX size); [reflexivity | lia].
Qed.

Lemma int_incr_ok i : i < INT_MAX -> int_incr i = Ok (i + 1).
Proof.
  intros Hi. unfold int_incr. destruct (Z.ltb_spec i INT_MAX); [reflexivity | lia].
Qed.

Lemma HT_create_valid size :
  0 < size <= INT_MAX ->
  exists h_table, HT_create size = Ok h_table /\ HT_valid h_table /\
    capacity h_table = size /\
    forall i head, nodes h_table !! i = Some head -> head = [].
Proof.
  intros Hs. eexists. split; [apply HT_create_ok; lia |]. split; [| split]; cbn.
  - split; cbn; [unfold INT_MAX, UINT_MAX in *; lia | apply length_replicate].
  - reflexivity.
  - intros i head Hi. now apply lookup_replicate in Hi as [-> _].
Qed.

Lemma set_bucket_valid h_table i head :
  HT_valid h_table -> HT_valid (set_bucket h_table i head).
Proof.
  intros [Hc Hl]. split; cbn; [exact Hc |]. now rewrite length_insert.
Qed.

Section TableFacts.
Context `{Platform}.

Lemma slot_range h_table k :
  HT_valid h_table -> 0 <= slot h_table k < capacity h_table.
Proof. intros [Hc _]. apply hash_spec_range. lia. Qed.

Lemma HT_hash_slot h_table k :
  HT_valid h_table -> HT_hash k (to_int (capacity h_table)) = Ok (slot h_table k).
Proof. intros [Hc _]. now apply HT_hash_capacity. Qed.

Lemma slot_allocated h_table k :
  HT_valid h_table ->
  exists head, nodes h_table !! Z.to_nat (slot h_table k) = Some head.
Proof.
  intros Hv. pose proof (slot_range h_table k Hv) as Hr. destruct Hv as [Hc Hl].
  apply lookup_lt_is_Some_2. lia.
Qed.

Lemma bucket_slot h_table k head :
  nodes h_table !! Z.to_nat (slot h_table k) = Some head ->
  bucket h_table (slot h_table k) = Ok head.
Proof. intros Hh. unfold bucket. now rewrite Hh. Qed.

Lemma bucket_set_bucket h_table i head :
  (Z.to_nat i < length (nodes h_table))%nat ->
  bucket (set_bucket h_table i head) i = Ok head.
Proof.
  intros Hi. unfold bucket, set_bucket. cbn.
  now rewrite list_lookup_insert_eq.
Qed.

Lemma HT_check_slot h_table k head :
  HT_valid h_table ->
  nodes h_table !! Z.to_nat (slot h_table k) = Some head ->
  HT_check h_table k = Ok (_HT_check head k).
Proof.
  intros Hv Hh. unfold HT_check. rewrite (HT_hash_slot _ _ Hv). cbn.
  now rewrite (bucket_slot _ _ _ Hh).
Qed.

Lemma HT_find_slot h_table k head :
  HT_valid h_table ->
  nodes h_table !! Z.to_nat (slot h_table k) = Some head ->
  HT_find h_table k = _HT_find head k.
Proof.
  intros Hv Hh. unfold HT_find. rewrite (HT_hash_slot _ _ Hv). cbn.
  now rewrite (bucket_slot _ _ _ Hh).
Qed.

Lemma _lookup_slot h_table k head :
  HT_valid h_table ->
  nodes h_table !! Z.to_nat (slot h_table k) = Some head ->
  _lookup h_table k =
  Ok (pos ← _lookup_loop head k 0%nat; Some (Z.to_nat (slot h_table k), pos)).
Proof.
  intros Hv Hh. unfold _lookup. rewrite (HT_hash_slot _ _ Hv). cbn.
  now rewrite (bucket_slot _ _ _ Hh).
Qed.

Lemma HT_add_slot h_table k v head :
  HT_valid h_table ->
  nodes h_table !! Z.to_nat (slot h_table k) = Some head ->
  HT_add h_table k v =
  Ok (set_bucket h_table (slot h_table k) ({| key := k; value := v |} :: head)).
Proof.
  intros Hv Hh. unfold HT_add. rewrite (HT_hash_slot _ _ Hv). cbn.
  now rewrite (bucket_slot _ _ _ Hh), strcpy_eq.
Qed.

Lemma HT_remove_slot h_table k head :
  HT_valid h_table ->
  nodes h_table !! Z.to_nat (slot h_table k) = Some head ->
  HT_remove h_table k =
  (head' ← _HT_remove_node head k; Ok (set_bucket h_table (slot h_table k) head')).
Proof.
  intros Hv Hh. unfold HT_remove. rewrite (HT_hash_slot _ _ Hv). cbn.
  now rewrite (bucket_slot _ _ _ Hh).
Qed.

Lemma slot_set_bucket h_table i head k :
  slot (set_bucket h_table i head) k = slot h_table k.
Proof. reflexivity. Qed.

End TableFacts.

(** ** Insertion *)

(** C8. [HT_add] changes only the slot the key hashes to: the chain there
    becomes a new entry with a copy of the key and the value, followed by
    the previous chain; the capacity and every other slot are as before. *)
Theorem HT_add_frame `{Platform} (h_table : HT_Ht) (k : string) (v : Z) :
  HT_valid h_table ->
  exists hash_val head h_table',
    HT_hash k (to_int (capacity h_table)) = Ok hash_val /\
    nodes h_table !! Z.to_nat hash_val = Some head /\
    HT_add h_table k v = Ok h_table' /\
    capacity h_table' = capacity h_table /\
    length (nodes h_table') = length (nodes h_table) /\
    nodes h_table' !! Z.to_nat hash_val = Some ({| key := k; value := v |} :: head) /\
    forall i, i <> Z.to_nat hash_val -> nodes h_table' !! i = nodes h_table !! i.
Proof.
  intros Hv. destruct (slot_allocated h_table k Hv) as [head Hh].
  exists (slot h_table k), head. eexists.
  split; [now apply HT_hash_slot |]. split; [exact Hh |].
  split; [exact (HT_add_slot _ _ _ _ Hv Hh) |]. cbn.
  split; [reflexivity |]. split; [apply length_insert |]. split.
  - apply list_lookup_insert_eq. now apply lookup_lt_Some in Hh.
  - intros i Hi. now apply list_lookup_insert_ne.
Qed.

Lemma HT_add_frame_witness :
  exists hash_val head h_table',
    @HT_hash signed_char_platform "bob"
      (to_int (capacity {| capacity := 2; nodes := [[]; [{| key := "a"; value := 5 |}]] |}))
      = Ok hash_val /\
    [[]; [{| key := "a"; value := 5 |}]] !! Z.to_nat hash_val = Some head /\
    @HT_add signed_char_platform
      {| capacity := 2; nodes := [[]; [{| key := "a"; value := 5 |}]] |} "bob" 40
      = Ok h_table' /\
    capacity h_table' = 2 /\
    length (nodes h_table') = 2%nat /\
    nodes h_table' !! Z.to_nat hash_val = Some ({| key := "bob"; value := 40 |} :: head) /\
    forall i, i <> Z.to_nat hash_val ->
      nodes h_table' !! i = [[]; [{| key := "a"; value := 5 |}]] !! i.
Proof.
  apply (@HT_add_frame signed_char_platform
           {| capacity := 2; nodes := [[]; [{| key := "a"; value := 5 |}]] |} "bob" 40).
  split; [unfold UINT_MAX; cbn; lia | reflexivity].
Defined.

Lemma HT_add_valid `{Platform} h_table k v :
  HT_valid h_table ->
  exists h_table', HT_add h_table k v = Ok h_table' /\ HT_valid h_table'.
Proof.
  intros Hv. destruct (slot_allocated h_table k Hv) as [head Hh].
  eexists. split; [exact (HT_add_slot _ _ _ _ Hv Hh) | now apply set_bucket_valid].
Qed.

(** C4. After [HT_add h_table k v], [HT_check] on [k] returns 1 and
    [HT_find] on [k] returns [v]. This needs no assumption on what the
    table held for [k] before. *)
Theorem HT_add_round_trip `{Platform} (h_table : HT_Ht) (k : string) (v : Z) :
  HT_valid h_table ->
  exists h_table',
    HT_add h_table k v = Ok h_table' /\
    HT_check h_table' k = Ok 1 /\
    HT_find h_table' k = Ok v.
Proof.
  intros Hv. destruct (slot_allocated h_table k Hv) as [head Hh].
  pose proof (lookup_lt_Some _ _ _ Hh) as Hlt.
  set (new_node := {| key := k; value := v |}).
  exists (set_bucket h_table (slot h_table k) (new_node :: head)).
  assert (Hv' : HT_valid (set_bucket h_table (slot h_table k) (new_node :: head)))
    by now apply set_bucket_valid.
  assert (Hh' : nodes (set_bucket h_table (slot h_table k) (new_node :: head))
                  !! Z.to_nat (slot (set_bucket h_table (slot h_table k) (new_node :: head)) k)
                = Some (new_node :: head))
    by (rewrite slot_set_bucket; cbn; now apply list_lookup_insert_eq).
  split; [exact (HT_add_slot h_table k v head Hv Hh) |]. split.
  - rewrite (HT_check_slot _ _ _ Hv' Hh'), _HT_check_cons.
    now rewrite bool_decide_eq_true_2.
  - rewrite (HT_find_slot _ _ _ Hv' Hh'), _HT_find_cons.
    now rewrite bool_decide_eq_true_2.
Qed.

Lemma HT_add_round_trip_witness :
  exists h_table',
    @HT_add signed_char_platform
      {| capacity := 2; nodes := [[]; [{| key := "a"; value := 5 |}]] |} "bob" 40
      = Ok h_table' /\
    @HT_check signed_char_platform h_table' "bob" = Ok 1 /\
    @HT_find signed_char_platform h_table' "bob" = Ok 40.
Proof.
  apply (@HT_add_round_trip signed_char_platform
           {| capacity := 2; nodes := [[]; [{| key := "a"; value := 5 |}]] |} "bob" 40).
  split; [unfold UINT_MAX; cbn; lia | reflexivity].
Defined.

(** ** The scans agree *)

Lemma first_match_insert head k i n v :
  first_match head k i n ->
  first_match (<[i := {| key := key n; value := v |}]> head) k i
    {| key := key n; value := v |}.
Proof.
  intros (Hi & Hk & Hbefore). repeat split.
  - apply list_lookup_insert_eq. now apply lookup_lt_Some in Hi.
  - exact Hk.
  - intros j m Hj Hl. rewrite list_lookup_insert_ne in Hl by lia.
    exact (Hbefore j m Hj Hl).
Qed.

(** C9. For every table and key: [HT_check] returns 1 exactly when [_lookup]
    returns a node; the node [_lookup] returns is the first entry of the
    chain that carries the key, [HT_find] returns the value of that very
    entry, and [HT_change] writes to it. *)
Theorem scans_agree `{Platform} (h_table : HT_Ht) (k : string) :
  (HT_check h_table k = Ok 1 <-> exists node, _lookup h_table k = Ok (Some node)) /\
  (forall b pos, _lookup h_table k = Ok (Some (b, pos)) ->
     exists head n,
       nodes h_table !! b = Some head /\
       first_match head k pos n /\
       HT_find h_table k = Ok (value n) /\
       forall v, HT_change h_table k v =
         Ok {| capacity := capacity h_table;
               nodes := <[b := <[pos := {| key := key n; value := v |}]> head]>
                          (nodes h_table) |}).
Proof.
  unfold HT_change, HT_check, HT_find. unfold _lookup.
  destruct (HT_hash k (to_int (capacity h_table))) as [hash_val | f];
    cbn [mbind result_bind].
  2: { split; [split; [discriminate | intros [? ?]; discriminate] | discriminate]. }
  unfold bucket.
  destruct (nodes h_table !! Z.to_nat hash_val) as [head |] eqn:Hh;
    cbn [mbind result_bind].
  2: { split; [split; [discriminate | intros [? ?]; discriminate] | discriminate]. }
  destruct (_lookup_loop head k 0) as [p |] eqn:Hl; cbn [mbind option_bind].
  - destruct (_lookup_loop_found _ _ _ _ Hl) as (i & n & -> & Hm).
    change (0 + i)%nat with i in *.
    split.
    + split; [eauto |]. intros _. f_equal. apply _HT_check_found. eauto.
    + intros b pos [= <- <-]. exists head, n.
      split; [exact Hh |]. split; [exact Hm |].
      split; [now apply (_HT_find_first _ _ i) |].
      intros v. unfold store_value. rewrite Hh. destruct Hm as (-> & _). reflexivity.
  - apply _lookup_loop_absent in Hl. rewrite Hl. split; [| discriminate].
    split; [discriminate | intros [? ?]; discriminate].
Qed.

Lemma scans_agree_witness :
  @_lookup signed_char_platform
    {| capacity := 1;
       nodes := [[{| key := "a"; value := 1 |}; {| key := "b"; value := 2 |};
                  {| key := "b"; value := 3 |}]] |} "b" = Ok (Some (0%nat, 1%nat)) /\
  @HT_check signed_char_platform
    {| capacity := 1;
       nodes := [[{| key := "a"; value := 1 |}; {| key := "b"; value := 2 |};
                  {| key := "b"; value := 3 |}]] |} "b" = Ok 1 /\
  exists head n,
    [[{| key := "a"; value := 1 |}; {| key := "b"; value := 2 |};
      {| key := "b"; value := 3 |}]] !! 0%nat = Some head /\
    first_match head "b" 1 n /\
    @HT_find signed_char_platform
      {| capacity := 1;
         nodes := [[{| key := "a"; value := 1 |}; {| key := "b"; value := 2 |};
                    {| key := "b"; value := 3 |}]] |} "b" = Ok (value n).
Proof.
  pose proof (@scans_agree signed_char_platform
    {| capacity := 1;
       nodes := [[{| key := "a"; value := 1 |}; {| key := "b"; value := 2 |};
                  {| key := "b"; value := 3 |}]] |} "b") as [Hiff Hnode].
  assert (Hl : @_lookup signed_char_platform
    {| capacity := 1;
       nodes := [[{| key := "a"; value := 1 |}; {| key := "b"; value := 2 |};
                  {| key := "b"; value := 3 |}]] |} "b" = Ok (Some (0%nat, 1%nat)))
    by reflexivity.
  split; [exact Hl |]. split.
  - apply Hiff. eexists. exact Hl.
  - destruct (Hnode _ _ Hl) as (head & n & Hh & Hm & Hf & _).
    exists head, n. auto.
Defined.

(** ** Update *)

Lemma HT_change_present `{Platform} h_table k v head i n :
  HT_valid h_table ->
  nodes h_table !! Z.to_nat (slot h_table k) = Some head ->
  first_match head k i n ->
  HT_change h_table k v =
    Ok (set_bucket h_table (slot h_table k)
          (<[i := {| key := key n; value := v |}]> head)) /\
  HT_find (set_bucket h_table (slot h_table k)
             (<[i := {| key := key n; value := v |}]> head)) k = Ok v.
Proof.
  intros Hv Hh Hm. split.
  - unfold HT_change. rewrite (_lookup_slot _ _ _ Hv Hh).
    rewrite (_lookup_loop_first _ _ 0 _ _ Hm). cbn.
    rewrite Hh. destruct Hm as (-> & _). reflexivity.
  - rewrite (HT_find_slot _ _ (<[i := {| key := key n; value := v |}]> head)).
    + now rewrite (_HT_find_first _ _ _ _ (first_match_insert _ _ _ _ v Hm)).
    + now apply set_bucket_valid.
    + rewrite slot_set_bucket. cbn. apply list_lookup_insert_eq.
      now apply lookup_lt_Some in Hh.
Qed.

Lemma HT_change_valid `{Platform} h_table k v h_table' :
  HT_valid h_table -> HT_change h_table k v = Ok h_table' -> HT_valid h_table'.
Proof.
  intros Hv. unfold HT_change, store_value.
  destruct (_lookup h_table k) as [[[b pos] |] | f]; cbn; try discriminate.
  destruct (nodes h_table !! b) as [head |]; [| discriminate].
  destruct (head !! pos) as [n |]; [| discriminate].
  intros [= <-]. destruct Hv as [Hc Hl]. split; cbn; [exact Hc |].
  now rewrite length_insert.
Qed.

(** C7. When [k] is present, [HT_change h_table k v2] overwrites the value
    of the first entry of the chain that carries [k] and nothing else (the
    entry keeps its key and its place, the other entries and slots are as
    before), and [HT_find] then returns [v2]; in particular [HT_add] of
    [(k, v1)] followed by [HT_change] to [v2] makes [HT_find] return [v2]. *)
Theorem HT_change_overwrites `{Platform} (h_table : HT_Ht) (k : string) (v1 v2 : Z) :
  HT_valid h_table ->
  (HT_check h_table k = Ok 1 ->
   exists hash_val head i n h_table',
     HT_hash k (to_int (capacity h_table)) = Ok hash_val /\
     nodes h_table !! Z.to_nat hash_val = Some head /\
     first_match head k i n /\
     HT_change h_table k v2 = Ok h_table' /\
     h_table' =
       {| capacity := capacity h_table;
          nodes := <[Z.to_nat hash_val := <[i := {| key := key n; value := v2 |}]> head]>
                     (nodes h_table) |} /\
     HT_find h_table' k = Ok v2) /\
  (exists h_table1 h_table2,
     HT_add h_table k v1 = Ok h_table1 /\
     HT_change h_table1 k v2 = Ok h_table2 /\
     HT_find h_table2 k = Ok v2).
Proof.
  intros Hv. destruct (slot_allocated h_table k Hv) as [head Hh]. split.
  - intros Hc. rewrite (HT_check_slot _ _ _ Hv Hh) in Hc.
    injection Hc as Hc. apply _HT_check_found in Hc as (i & n & Hm).
    destruct (HT_change_present h_table k v2 head i n Hv Hh Hm) as [Hchange Hfind].
    exists (slot h_table k), head, i, n. eexists.
    split; [now apply HT_hash_slot |]. split; [exact Hh |]. split; [exact Hm |].
    split; [exact Hchange |]. split; [reflexivity | exact Hfind].
  - set (new_node := {| key := k; value := v1 |}).
    set (h_table1 := set_bucket h_table (slot h_table k) (new_node :: head)).
    assert (Hv1 : HT_valid h_table1) by now apply set_bucket_valid.
    assert (Hh1 : nodes h_table1 !! Z.to_nat (slot h_table1 k) = Some (new_node :: head)).
    { unfold h_table1. rewrite slot_set_bucket. cbn. apply list_lookup_insert_eq.
      now apply lookup_lt_Some in Hh. }
    assert (Hm : first_match (new_node :: head) k 0 new_node)
      by now apply first_match_head.
    destruct (HT_change_present h_table1 k v2 _ _ _ Hv1 Hh1 Hm) as [Hchange Hfind].
    exists h_table1. eexists.
    split; [exact (HT_add_slot _ _ _ _ Hv Hh) |]. split; [exact Hchange | exact Hfind].
Qed.

Lemma HT_change_overwrites_witness :
  (exists hash_val head i n h_table',
     @HT_hash signed_char_platform "b" (to_int 1) = Ok hash_val /\
     [[{| key := "a"; value := 1 |}; {| key := "b"; value := 2 |};
       {| key := "b"; value := 3 |}]] !! Z.to_nat hash_val = Some head /\
     first_match head "b" i n /\
     @HT_change signed_char_platform
       {| capacity := 1;
          nodes := [[{| key := "a"; value := 1 |}; {| key := "b"; value := 2 |};
                     {| key := "b"; value := 3 |}]] |} "b" 9 = Ok h_table' /\
     h_table' =
       {| capacity := 1;
          nodes := <[Z.to_nat hash_val := <[i := {| key := key n; value := 9 |}]> head]>
                     [[{| key := "a"; value := 1 |}; {| key := "b"; value := 2 |};
                       {| key := "b"; value := 3 |}]] |} /\
     @HT_find signed_char_platform h_table' "b" = Ok 9) /\
  (exists h_table1 h_table2,
     @HT_add signed_char_platform
       {| capacity := 1;
          nodes := [[{| key := "a"; value := 1 |}; {| key := "b"; value := 2 |};
                     {| key := "b"; value := 3 |}]] |} "b" 7 = Ok h_table1 /\
     @HT_change signed_char_platform h_table1 "b" 9 = Ok h_table2 /\
     @HT_find signed_char_platform h_table2 "b" = Ok 9).
Proof.
  destruct (@HT_change_overwrites signed_char_platform
    {| capacity := 1;
       nodes := [[{| key := "a"; value := 1 |}; {| key := "b"; value := 2 |};
                  {| key := "b"; value := 3 |}]] |} "b" 7 9) as [Hpresent Hadd].
  - split; [unfold UINT_MAX; cbn; lia | reflexivity].
  - split; [apply Hpresent; reflexivity | exact Hadd].
Defined.

(** ** Removal *)

Lemma HT_remove_present `{Platform} h_table k head :
  HT_valid h_table ->
  nodes h_table !! Z.to_nat (slot h_table k) = Some head ->
  forall head', _HT_remove_node head k = Ok head' ->
  HT_remove h_table k = Ok (set_bucket h_table (slot h_table k) head').
Proof.
  intros Hv Hh head' Hr. rewrite (HT_remove_slot _ _ _ Hv Hh), Hr. reflexivity.
Qed.

(** A first match past the head of its chain: that entry alone is unlinked,
    the rest of the chain keeps its order, and the other slots and the
    capacity are as before. *)
Lemma HT_remove_interior `{Platform} h_table k head i n :
  HT_valid h_table ->
  nodes h_table !! Z.to_nat (slot h_table k) = Some head ->
  first_match head k (S i) n ->
  HT_remove h_table k =
    Ok {| capacity := capacity h_table;
          nodes := <[Z.to_nat (slot h_table k) := delete (S i) head]> (nodes h_table) |}.
Proof.
  intros Hv Hh Hm.
  exact (HT_remove_present _ _ _ Hv Hh _ (_HT_remove_node_interior _ _ _ _ Hm)).
Qed.

(** A match at the head of the chain: the slot is left null, whatever
    followed the removed entry. *)
Lemma HT_remove_head `{Platform} h_table k n rest :
  HT_valid h_table ->
  nodes h_table !! Z.to_nat (slot h_table k) = Some (n :: rest) ->
  key n = k ->
  HT_remove h_table k =
    Ok {| capacity := capacity h_table;
          nodes := <[Z.to_nat (slot h_table k) := []]> (nodes h_table) |}.
Proof.
  intros Hv Hh Hk.
  exact (HT_remove_present _ _ _ Hv Hh _ (_HT_remove_node_head _ _ _ Hk)).
Qed.

Lemma HT_remove_absent `{Platform} h_table k :
  HT_valid h_table -> HT_check h_table k = Ok 0 ->
  HT_remove h_table k = Fault NullDeref.
Proof.
  intros Hv Hc. destruct (slot_allocated h_table k Hv) as [head Hh].
  rewrite (HT_check_slot _ _ _ Hv Hh) in Hc. injection Hc as Hc.
  rewrite (HT_remove_slot _ _ _ Hv Hh), (_HT_remove_node_absent _ _ Hc).
  reflexivity.
Qed.


(** C10. When an entry with the key is in the chain, [_HT_remove_node]
    dereferences no null pointer: neither the node it is given nor a
    successor whose key it compares is null, so it returns a chain; and so
    does [HT_remove] on a table whose slot for the key holds that chain. *)
Theorem HT_remove_follows_no_null_link `{Platform} (head : list HT_Node) (k : string) :
  k ∈ map key head ->
  (exists head', _HT_remove_node head k = Ok head') /\
  (forall h_table hash_val,
     HT_valid h_table ->
     HT_hash k (to_int (capacity h_table)) = Ok hash_val ->
     bucket h_table hash_val = Ok head ->
     exists h_table', HT_remove h_table k = Ok h_table').
Proof.
  intros Hin. apply _HT_check_elem, _HT_remove_node_present in Hin as [head' Hr].
  split; [eauto |].
  intros h_table hash_val Hv Hhash Hb. unfold HT_remove.
  rewrite Hhash. cbn. rewrite Hb. cbn. rewrite Hr. cbn. eauto.
Qed.

Lemma HT_remove_follows_no_null_link_witness :
  (exists head',
     _HT_remove_node
       [{| key := "a"; value := 1 |}; {| key := "b"; value := 2 |};
        {| key := "c"; value := 3 |}] "c" = Ok head') /\
  (exists h_table',
     @HT_remove signed_char_platform
       {| capacity := 1;
          nodes := [[{| key := "a"; value := 1 |}; {| key := "b"; value := 2 |};
                     {| key := "c"; value := 3 |}]] |} "c" = Ok h_table').
Proof.
  destruct (@HT_remove_follows_no_null_link signed_char_platform
    [{| key := "a"; value := 1 |}; {| key := "b"; value := 2 |};
     {| key := "c"; value := 3 |}] "c") as [Hnode Htable].
  - cbn. repeat constructor.
  - split; [exact Hnode |].
    apply (Htable
      {| capacity := 1;
         nodes := [[{| key := "a"; value := 1 |}; {| key := "b"; value := 2 |};
                    {| key := "c"; value := 3 |}]] |} 0).
    + split; [unfold UINT_MAX; cbn; lia | reflexivity].
    + reflexivity.
    + reflexivity.
Defined.

(** C1. A table of one slot holding the chain [a, b, c], as three calls of
    [HT_add] on a fresh table build it: removing the head key [a] leaves the
    slot null instead of heading it with [b], so [b] and [c] are gone too. *)
Theorem HT_remove_head_drops_chain :
  (t0 ← HT_create 1;
   t1 ← @HT_add signed_char_platform t0 "c" 3;
   t2 ← @HT_add signed_char_platform t1 "b" 2;
   @HT_add signed_char_platform t2 "a" 1)
  = Ok {| capacity := 1;
          nodes := [[{| key := "a"; value := 1 |}; {| key := "b"; value := 2 |};
                     {| key := "c"; value := 3 |}]] |} /\
  @HT_remove signed_char_platform
    {| capacity := 1;
       nodes := [[{| key := "a"; value := 1 |}; {| key := "b"; value := 2 |};
                  {| key := "c"; value := 3 |}]] |} "a"
  = Ok {| capacity := 1; nodes := [[]] |} /\
  @HT_check signed_char_platform {| capacity := 1; nodes := [[]] |} "b" = Ok 0.
Proof. repeat split. Qed.

(** C2. On a fresh table of four slots, after [HT_add] of [("x", 1)] and
    of [("x", 2)], [HT_find] on ["x"] returns 2; one [HT_remove] of ["x"]
    then leaves the slot null: [HT_check] returns 0 and [HT_find]
    dereferences a null pointer, where the older entry should be found. *)
Theorem HT_remove_loses_shadowed_entry :
  (t0 ← HT_create 4;
   t1 ← @HT_add signed_char_platform t0 "x" 1;
   @HT_add signed_char_platform t1 "x" 2)
  = Ok {| capacity := 4;
          nodes := [[{| key := "x"; value := 2 |}; {| key := "x"; value := 1 |}];
                    []; []; []] |} /\
  @HT_find signed_char_platform
    {| capacity := 4;
       nodes := [[{| key := "x"; value := 2 |}; {| key := "x"; value := 1 |}];
                 []; []; []] |} "x" = Ok 2 /\
  @HT_remove signed_char_platform
    {| capacity := 4;
       nodes := [[{| key := "x"; value := 2 |}; {| key := "x"; value := 1 |}];
                 []; []; []] |} "x"
  = Ok {| capacity := 4; nodes := [[]; []; []; []] |} /\
  @HT_check signed_char_platform
    {| capacity := 4; nodes := [[]; []; []; []] |} "x" = Ok 0 /\
  @HT_find signed_char_platform
    {| capacity := 4; nodes := [[]; []; []; []] |} "x" = Fault NullDeref.
Proof. repeat split. Qed.

(** Whatever the table, [HT_add] then [HT_remove] of the same key leaves
    the slot of the key null. *)
Lemma HT_add_remove_empties_slot `{Platform} h_table k v :
  HT_valid h_table ->
  exists h_table1,
    HT_add h_table k v = Ok h_table1 /\
    HT_remove h_table1 k =
      Ok {| capacity := capacity h_table;
            nodes := <[Z.to_nat (slot h_table k) := []]> (nodes h_table) |}.
Proof.
  intros Hv. destruct (slot_allocated h_table k Hv) as [head Hh].
  eexists. split; [exact (HT_add_slot _ _ _ _ Hv Hh) |].
  rewrite (HT_remove_head _ k {| key := k; value := v |} head).
  - rewrite slot_set_bucket. cbn. now rewrite list_insert_insert_eq.
  - now apply set_bucket_valid.
  - rewrite slot_set_bucket. cbn. apply list_lookup_insert_eq.
    now apply lookup_lt_Some in Hh.
  - reflexivity.
Qed.

(** ** Construction *)

(** Against C3 as stated: [HT_create 0] returns a table, and a scan of it
    divides by zero. *)
Lemma HT_create_zero_accepted :
  exists h_table,
    HT_create 0 = Ok h_table /\
    @HT_check signed_char_platform h_table "x" = Fault DivByZero.
Proof. eexists. split; reflexivity. Qed.

(** C3 (amended). [HT_create 0] is not rejected: it returns a table of
    capacity 0 without slots, and every operation that hashes a key on that
    table divides by zero. *)
Theorem HT_create_zero_live `{Platform} (k : string) (v : Z) :
  exists h_table,
    HT_create 0 = Ok h_table /\
    capacity h_table = 0 /\ nodes h_table = [] /\
    HT_check h_table k = Fault DivByZero /\
    HT_find h_table k = Fault DivByZero /\
    HT_add h_table k v = Fault DivByZero /\
    HT_change h_table k v = Fault DivByZero /\
    HT_remove h_table k = Fault DivByZero.
Proof.
  eexists. split; [reflexivity |]. cbn [capacity nodes].
  assert (Hz : HT_hash k (to_int 0) = Fault DivByZero)
    by (apply HT_hash_zero; reflexivity).
  unfold HT_check, HT_find, HT_add, HT_change, HT_remove, _lookup.
  cbn [capacity]. rewrite Hz. repeat split.
Qed.

(** ** What an operation leaves of a table *)

Section Inversion.
Context `{Platform}.

Lemma HT_add_inv h_table k v h_table' :
  HT_valid h_table -> HT_add h_table k v = Ok h_table' ->
  exists head,
    nodes h_table !! Z.to_nat (slot h_table k) = Some head /\
    h_table' = set_bucket h_table (slot h_table k) ({| key := k; value := v |} :: head).
Proof.
  intros Hv Ha. destruct (slot_allocated h_table k Hv) as [head Hh].
  rewrite (HT_add_slot _ _ _ _ Hv Hh) in Ha. injection Ha as <-. eauto.
Qed.

Lemma HT_change_absent h_table k v :
  HT_valid h_table -> HT_check h_table k = Ok 0 ->
  HT_change h_table k v = Fault NullDeref.
Proof.
  intros Hv Hc. destruct (slot_allocated h_table k Hv) as [head Hh].
  rewrite (HT_check_slot _ _ _ Hv Hh) in Hc. injection Hc as Hc.
  unfold HT_change. rewrite (_lookup_slot _ _ _ Hv Hh).
  apply _lookup_loop_absent with (pos := 0%nat) in Hc. rewrite Hc. reflexivity.
Qed.

Lemma HT_check_bool h_table k :
  HT_valid h_table -> HT_check h_table k = Ok 0 \/ HT_check h_table k = Ok 1.
Proof.
  intros Hv. destruct (slot_allocated h_table k Hv) as [head Hh].
  rewrite (HT_check_slot _ _ _ Hv Hh).
  destruct (_HT_check_bool head k) as [-> | ->]; auto.
Qed.

Lemma HT_change_inv h_table k v h_table' :
  HT_valid h_table -> HT_change h_table k v = Ok h_table' ->
  exists head i n,
    nodes h_table !! Z.to_nat (slot h_table k) = Some head /\
    first_match head k i n /\
    h_table' = set_bucket h_table (slot h_table k)
                 (<[i := {| key := key n; value := v |}]> head).
Proof.
  intros Hv Hc. destruct (slot_allocated h_table k Hv) as [head Hh].
  destruct (HT_check_bool h_table k Hv) as [H0 | H1].
  - rewrite (HT_change_absent _ _ _ Hv H0) in Hc. discriminate.
  - rewrite (HT_check_slot _ _ _ Hv Hh) in H1. injection H1 as H1.
    apply _HT_check_found in H1 as (i & n & Hm).
    destruct (HT_change_present h_table k v head i n Hv Hh Hm) as [Hch _].
    rewrite Hch in Hc. injection Hc as <-. eauto 6.
Qed.

Lemma HT_remove_inv h_table k h_table' :
  HT_valid h_table -> HT_remove h_table k = Ok h_table' ->
  exists head head',
    nodes h_table !! Z.to_nat (slot h_table k) = Some head /\
    _HT_remove_node head k = Ok head' /\
    h_table' = set_bucket h_table (slot h_table k) head'.
Proof.
  intros Hv Hr. destruct (slot_allocated h_table k Hv) as [head Hh].
  rewrite (HT_remove_slot _ _ _ Hv Hh) in Hr.
  destruct (_HT_remove_node head k) as [head' | f] eqn:E; [| discriminate].
  injection Hr as <-. eauto.
Qed.

(** Reading a key after one slot was rewritten. *)
Lemma HT_check_set_bucket h_table b head' k :
  HT_valid h_table -> (Z.to_nat b < length (nodes h_table))%nat ->
  HT_check (set_bucket h_table b head') k =
  if decide (Z.to_nat (slot h_table k) = Z.to_nat b) then Ok (_HT_check head' k)
  else HT_check h_table k.
Proof.
  intros Hv Hb. destruct (slot_allocated h_table k Hv) as [head Hh].
  pose proof (set_bucket_valid h_table b head' Hv) as Hv'.
  case_decide as Hs.
  - apply (HT_check_slot _ _ _ Hv'). rewrite slot_set_bucket, Hs. cbn.
    now apply list_lookup_insert_eq.
  - rewrite (HT_check_slot _ _ _ Hv Hh). apply (HT_check_slot _ _ _ Hv').
    rewrite slot_set_bucket. cbn. rewrite list_lookup_insert_ne by congruence.
    exact Hh.
Qed.

Lemma HT_find_set_bucket h_table b head' k :
  HT_valid h_table -> (Z.to_nat b < length (nodes h_table))%nat ->
  HT_find (set_bucket h_table b head') k =
  if decide (Z.to_nat (slot h_table k) = Z.to_nat b) then _HT_find head' k
  else HT_find h_table k.
Proof.
  intros Hv Hb. destruct (slot_allocated h_table k Hv) as [head Hh].
  pose proof (set_bucket_valid h_table b head' Hv) as Hv'.
  case_decide as Hs.
  - apply (HT_find_slot _ _ _ Hv'). rewrite slot_set_bucket, Hs. cbn.
    now apply list_lookup_insert_eq.
  - rewrite (HT_find_slot _ _ _ Hv Hh). apply (HT_find_slot _ _ _ Hv').
    rewrite slot_set_bucket. cbn. rewrite list_lookup_insert_ne by congruence.
    exact Hh.
Qed.

End Inversion.

Lemma demo_table_valid : HT_valid demo_table.
Proof. split; [unfold UINT_MAX; cbn; lia | reflexivity]. Qed.

(** ** A missing key *)

(** X1. On a table with its slots, a key that [HT_check] reports absent is
    exactly a key on which [HT_find], [HT_change] and [HT_remove] each
    dereference a null pointer: none of them reports the miss. *)
Theorem missing_key_is_null_dereference `{Platform}
    (h_table : HT_Ht) (k : string) (v : Z) :
  HT_valid h_table ->
  (HT_check h_table k = Ok 0 <-> HT_find h_table k = Fault NullDeref) /\
  (HT_check h_table k = Ok 0 <-> HT_change h_table k v = Fault NullDeref) /\
  (HT_check h_table k = Ok 0 <-> HT_remove h_table k = Fault NullDeref).
Proof.
  intros Hv. destruct (slot_allocated h_table k Hv) as [head Hh].
  assert (Hpresent : HT_check h_table k = Ok 1 ->
            exists i n, first_match head k i n).
  { rewrite (HT_check_slot _ _ _ Hv Hh). intros [= Hc].
    now apply _HT_check_found. }
  split; [| split]; split.
  - rewrite (HT_check_slot _ _ _ Hv Hh), (HT_find_slot _ _ _ Hv Hh).
    intros [= Hc]. now apply _HT_find_absent.
  - intros Hf. destruct (HT_check_bool h_table k Hv) as [H0 | H1]; [exact H0 |].
    destruct (Hpresent H1) as (i & n & Hm).
    rewrite (HT_find_slot _ _ _ Hv Hh), (_HT_find_first _ _ _ _ Hm) in Hf.
    discriminate.
  - now apply HT_change_absent.
  - intros Hf. destruct (HT_check_bool h_table k Hv) as [H0 | H1]; [exact H0 |].
    destruct (Hpresent H1) as (i & n & Hm).
    destruct (HT_change_present h_table k v head i n Hv Hh Hm) as [Hch _].
    rewrite Hch in Hf. discriminate.
  - now apply HT_remove_absent.
  - intros Hf. destruct (HT_check_bool h_table k Hv) as [H0 | H1]; [exact H0 |].
    rewrite (HT_check_slot _ _ _ Hv Hh) in H1. injection H1 as H1.
    destruct (_HT_remove_node_present _ _ H1) as [head' Hr].
    rewrite (HT_remove_slot _ _ _ Hv Hh), Hr in Hf. discriminate.
Qed.

Lemma missing_key_is_null_dereference_witness :
  (@HT_check signed_char_platform demo_table "e" = Ok 0 <->
   @HT_find signed_char_platform demo_table "e" = Fault NullDeref) /\
  (@HT_check signed_char_platform demo_table "e" = Ok 0 <->
   @HT_change signed_char_platform demo_table "e" 7 = Fault NullDeref) /\
  (@HT_check signed_char_platform demo_table "e" = Ok 0 <->
   @HT_remove signed_char_platform demo_table "e" = Fault NullDeref).
Proof.
  apply (@missing_key_is_null_dereference signed_char_platform demo_table "e" 7).
  exact demo_table_valid.
Defined.

(** ** Chains after an update or a removal *)

Lemma _HT_remove_node_inv head k head' :
  _HT_remove_node head k = Ok head' ->
  (exists n rest, head = n :: rest /\ key n = k /\ head' = []) \/
  (exists i n, first_match head k (S i) n /\ head' = delete (S i) head).
Proof.
  intros Hr. destruct (_HT_check_bool head k) as [H0 | H1].
  - rewrite (_HT_remove_node_absent _ _ H0) in Hr. discriminate.
  - apply _HT_check_found in H1 as (i & n & Hm). destruct i as [| i].
    + left. destruct head as [| m rest]; [now apply first_match_nil in Hm |].
      apply first_match_inv in Hm as [(_ & _ & Hk) | (i' & Hi & _)]; [| discriminate].
      rewrite (_HT_remove_node_head _ _ _ Hk) in Hr. injection Hr as <-. eauto.
    + right. rewrite (_HT_remove_node_interior _ _ _ _ Hm) in Hr.
      injection Hr as <-. eauto.
Qed.

Lemma scans_delete_other chain i n k' :
  chain !! i = Some n -> key n <> k' ->
  _HT_check (delete i chain) k' = _HT_check chain k' /\
  _HT_find (delete i chain) k' = _HT_find chain k'.
Proof.
  revert i. induction chain as [| m rest IH]; intros i Hi Hk; [discriminate |].
  destruct i as [| i].
  - change (delete 0%nat (m :: rest)) with rest.
    cbn in Hi. injection Hi as ->.
    now rewrite _HT_check_cons, _HT_find_cons, bool_decide_eq_false_2.
  - change (delete (S i) (m :: rest)) with (m :: delete i rest).
    cbn in Hi. destruct (IH i Hi Hk) as [Hc Hf].
    now rewrite !_HT_check_cons, !_HT_find_cons, Hc, Hf.
Qed.

Lemma _HT_check_insert_value chain i n v k' :
  chain !! i = Some n ->
  _HT_check (<[i := {| key := key n; value := v |}]> chain) k' = _HT_check chain k'.
Proof.
  revert i. induction chain as [| m rest IH]; intros i Hi; [discriminate |].
  destruct i as [| i].
  - change (<[0%nat := ?x]> (m :: rest)) with (x :: rest).
    cbn in Hi. injection Hi as ->. now rewrite !_HT_check_cons.
  - change (<[S i := ?x]> (m :: rest)) with (m :: <[i := x]> rest).
    cbn in Hi. now rewrite !_HT_check_cons, (IH i Hi).
Qed.

Lemma _HT_find_insert_value_other chain i n v k' :
  chain !! i = Some n -> key n <> k' ->
  _HT_find (<[i := {| key := key n; value := v |}]> chain) k' = _HT_find chain k'.
Proof.
  revert i. induction chain as [| m rest IH]; intros i Hi Hk; [discriminate |].
  destruct i as [| i].
  - change (<[0%nat := ?x]> (m :: rest)) with (x :: rest).
    cbn in Hi. injection Hi as ->.
    rewrite !_HT_find_cons. cbn [key].
    now rewrite !bool_decide_eq_false_2.
  - change (<[S i := ?x]> (m :: rest)) with (m :: <[i := x]> rest).
    cbn in Hi. now rewrite !_HT_find_cons, (IH i Hi Hk).
Qed.

Lemma _HT_check_absent chain k :
  _HT_check chain k = 0 <-> forall n, n ∈ chain -> key n <> k.
Proof.
  split.
  - intros H0 n Hin Hk.
    assert (H1 : _HT_check chain k = 1).
    { apply _HT_check_elem. rewrite <- Hk. apply list_elem_of_fmap. eauto. }
    congruence.
  - intros Hn. destruct (_HT_check_bool chain k) as [H0 | H1]; [exact H0 |].
    apply _HT_check_elem, list_elem_of_fmap in H1 as (n & -> & Hin).
    now destruct (Hn n Hin).
Qed.

(** ** Construction of a usable table *)

(** X2. For every size from 1 to [INT_MAX] (beyond it the [int] counter of
    the loop overflows), [HT_create] returns a table of that capacity with
    as many slots, all of them null, in which every key is absent. *)
Theorem HT_create_fresh `{Platform} (size : Z) (k : string) :
  0 < size <= INT_MAX ->
  exists h_table,
    HT_create size = Ok h_table /\
    capacity h_table = size /\
    nodes h_table = replicate (Z.to_nat size) [] /\
    HT_valid h_table /\ HT_routed h_table /\
    HT_check h_table k = Ok 0.
Proof.
  intros Hs. eexists. split; [apply HT_create_ok; lia |]. cbn [capacity nodes].
  assert (Hv : HT_valid {| capacity := size; nodes := replicate (Z.to_nat size) [] |})
    by (split; cbn; [unfold INT_MAX, UINT_MAX in *; lia | apply length_replicate]).
  split; [reflexivity |]. split; [reflexivity |]. split; [exact Hv |]. split.
  - intros b head n Hb Hin. cbn in Hb.
    apply lookup_replicate in Hb as [-> _]. inversion Hin.
  - destruct (slot_allocated _ k Hv) as [head Hh].
    rewrite (HT_check_slot _ _ _ Hv Hh). cbn in Hh.
    now apply lookup_replicate in Hh as [-> _].
Qed.

Lemma HT_create_fresh_witness :
  exists h_table,
    HT_create 3 = Ok h_table /\
    capacity h_table = 3 /\
    nodes h_table = replicate (Z.to_nat 3) [] /\
    HT_valid h_table /\ @HT_routed signed_char_platform h_table /\
    @HT_check signed_char_platform h_table "alice" = Ok 0.
Proof.
  apply (@HT_create_fresh signed_char_platform 3 "alice").
  unfold INT_MAX. lia.
Defined.

(** ** Invariants *)

Section Invariants.
Context `{Platform}.

Lemma set_bucket_routed h_table b head' :
  HT_routed h_table ->
  (forall n, n ∈ head' -> Z.to_nat (slot h_table (key n)) = Z.to_nat b) ->
  HT_routed (set_bucket h_table b head').
Proof.
  intros Hr Hnew b' head n Hb Hin. rewrite slot_set_bucket. cbn in Hb.
  destruct (decide (Z.to_nat b = b')) as [<- | Hne].
  - destruct (decide (Z.to_nat b < length (nodes h_table))%nat) as [Hlt | Hge].
    + rewrite list_lookup_insert_eq in Hb by exact Hlt.
      injection Hb as <-. now apply Hnew.
    + rewrite list_insert_ge in Hb by lia. exact (Hr _ _ _ Hb Hin).
  - rewrite list_lookup_insert_ne in Hb by exact Hne. exact (Hr _ _ _ Hb Hin).
Qed.

Lemma HT_add_routed h_table k v h_table' :
  HT_valid h_table -> HT_routed h_table ->
  HT_add h_table k v = Ok h_table' -> HT_routed h_table'.
Proof.
  intros Hv Hr Ha. destruct (HT_add_inv _ _ _ _ Hv Ha) as (head & Hh & ->).
  apply set_bucket_routed; [exact Hr |].
  intros n [-> | Hin]%elem_of_cons; [reflexivity | exact (Hr _ _ _ Hh Hin)].
Qed.

Lemma HT_change_routed h_table k v h_table' :
  HT_valid h_table -> HT_routed h_table ->
  HT_change h_table k v = Ok h_table' -> HT_routed h_table'.
Proof.
  intros Hv Hr Hc.
  destruct (HT_change_inv _ _ _ _ Hv Hc) as (head & i & n & Hh & Hm & ->).
  apply set_bucket_routed; [exact Hr |].
  intros m Hin. apply list_elem_of_lookup in Hin as [j Hj].
  destruct Hm as (Hi & Hk & _).
  destruct (decide (i = j)) as [<- | Hne].
  - rewrite list_lookup_insert_eq in Hj by (now apply lookup_lt_Some in Hi).
    injection Hj as <-. cbn [key]. now rewrite Hk.
  - rewrite list_lookup_insert_ne in Hj by exact Hne.
    apply (Hr _ head); [exact Hh |]. apply list_elem_of_lookup. eauto.
Qed.

Lemma HT_remove_routed h_table k h_table' :
  HT_valid h_table -> HT_routed h_table ->
  HT_remove h_table k = Ok h_table' -> HT_routed h_table'.
Proof.
  intros Hv Hr Hrm.
  destruct (HT_remove_inv _ _ _ Hv Hrm) as (head & head' & Hh & Hn & ->).
  apply set_bucket_routed; [exact Hr |]. intros m Hin.
  apply (Hr _ head); [exact Hh |].
  apply _HT_remove_node_inv in Hn as [(n & rest & _ & _ & ->) | (i & n & _ & ->)].
  - inversion Hin.
  - exact (elem_of_sublist _ _ _ Hin (sublist_delete head (S i))).
Qed.

End Invariants.

(** X3. The operations keep a table well formed: whenever [HT_add],
    [HT_change] or [HT_remove] returns, the capacity and the number of slots
    are what they were, and every entry still sits in the slot its key
    hashes to. *)
Theorem operations_keep_table_well_formed `{Platform}
    (h_table h_table' : HT_Ht) (k : string) (v : Z) :
  HT_valid h_table -> HT_routed h_table ->
  HT_add h_table k v = Ok h_table' \/
  HT_change h_table k v = Ok h_table' \/
  HT_remove h_table k = Ok h_table' ->
  capacity h_table' = capacity h_table /\
  length (nodes h_table') = length (nodes h_table) /\
  HT_valid h_table' /\ HT_routed h_table'.
Proof.
  intros Hv Hr [Ha | [Hc | Hrm]].
  - pose proof (HT_add_routed _ _ _ _ Hv Hr Ha) as Hr'.
    destruct (HT_add_inv _ _ _ _ Hv Ha) as (head & Hh & ->).
    cbn. rewrite length_insert.
    split; [reflexivity |]. split; [reflexivity |].
    split; [now apply set_bucket_valid | exact Hr'].
  - pose proof (HT_change_routed _ _ _ _ Hv Hr Hc) as Hr'.
    destruct (HT_change_inv _ _ _ _ Hv Hc) as (head & i & n & Hh & Hm & ->).
    cbn. rewrite length_insert.
    split; [reflexivity |]. split; [reflexivity |].
    split; [now apply set_bucket_valid | exact Hr'].
  - pose proof (HT_remove_routed _ _ _ Hv Hr Hrm) as Hr'.
    destruct (HT_remove_inv _ _ _ Hv Hrm) as (head & head' & Hh & Hn & ->).
    cbn. rewrite length_insert.
    split; [reflexivity |]. split; [reflexivity |].
    split; [now apply set_bucket_valid | exact Hr'].
Qed.

Lemma demo_table_routed : @HT_routed signed_char_platform demo_table.
Proof.
  intros b head n Hb Hin. unfold demo_table in Hb. cbn [nodes] in Hb.
  destruct b as [| [| b]]; cbn in Hb; [| | discriminate];
    injection Hb as <-;
    repeat (apply elem_of_cons in Hin as [-> | Hin]; [reflexivity |]);
    inversion Hin.
Qed.

Lemma operations_keep_table_well_formed_witness :
  capacity (set_bucket demo_table 0 [{| key := "b"; value := 2 |}]) = 2 /\
  length (nodes (set_bucket demo_table 0 [{| key := "b"; value := 2 |}])) = 2%nat /\
  HT_valid (set_bucket demo_table 0 [{| key := "b"; value := 2 |}]) /\
  @HT_routed signed_char_platform
    (set_bucket demo_table 0 [{| key := "b"; value := 2 |}]).
Proof.
  apply (@operations_keep_table_well_formed signed_char_platform
           demo_table _ "d" 0).
  - split; [unfold UINT_MAX; cbn; lia | reflexivity].
  - exact demo_table_routed.
  - right. right. reflexivity.
Defined.

(** X4. In a well-formed table a key is found by [HT_check] exactly when some
    entry of some slot carries it: the scan of the one slot the key hashes
    to misses nothing. *)
Theorem HT_check_sees_every_entry `{Platform} (h_table : HT_Ht) (k : string) :
  HT_valid h_table -> HT_routed h_table ->
  (HT_check h_table k = Ok 1 <->
   exists b head n, nodes h_table !! b = Some head /\ n ∈ head /\ key n = k).
Proof.
  intros Hv Hr. destruct (slot_allocated h_table k Hv) as [head Hh].
  rewrite (HT_check_slot _ _ _ Hv Hh). split.
  - intros [= Hc]. apply _HT_check_elem, list_elem_of_fmap in Hc as (n & -> & Hin).
    eauto 6.
  - intros (b & head' & n & Hb & Hin & Hk). f_equal.
    apply _HT_check_elem. rewrite <- Hk. apply list_elem_of_fmap.
    exists n. split; [reflexivity |].
    pose proof (Hr _ _ _ Hb Hin) as Hslot. rewrite Hk in Hslot. subst b.
    congruence.
Qed.

Lemma HT_check_sees_every_entry_witness :
  @HT_check signed_char_platform demo_table "c" = Ok 1 <->
  exists b head n, nodes demo_table !! b = Some head /\ n ∈ head /\ key n = "c".
Proof.
  apply (@HT_check_sees_every_entry signed_char_platform demo_table "c").
  - split; [unfold UINT_MAX; cbn; lia | reflexivity].
  - exact demo_table_routed.
Defined.

(** ** The other keys *)

Section Frame.
Context `{Platform}.

Lemma same_slot_iff h_table k k' :
  HT_valid h_table ->
  HT_hash k' (to_int (capacity h_table)) = HT_hash k (to_int (capacity h_table)) <->
  Z.to_nat (slot h_table k') = Z.to_nat (slot h_table k).
Proof.
  intros Hv. rewrite !(HT_hash_slot _ _ Hv).
  pose proof (slot_range h_table k Hv). pose proof (slot_range h_table k' Hv).
  split; [intros [= ->]; reflexivity | intros Hs; f_equal; lia].
Qed.

(** Rewriting the slot of [k] with a chain that scans alike for [k']
    changes nothing for [k']. *)
Lemma set_bucket_same_scans h_table k head head' k' :
  HT_valid h_table ->
  nodes h_table !! Z.to_nat (slot h_table k) = Some head ->
  _HT_check head' k' = _HT_check head k' ->
  _HT_find head' k' = _HT_find head k' ->
  HT_check (set_bucket h_table (slot h_table k) head') k' = HT_check h_table k' /\
  HT_find (set_bucket h_table (slot h_table k) head') k' = HT_find h_table k'.
Proof.
  intros Hv Hh Hc Hf. pose proof (lookup_lt_Some _ _ _ Hh) as Hlt.
  rewrite HT_check_set_bucket, HT_find_set_bucket by assumption.
  case_decide as Hs; [| split; reflexivity].
  rewrite <- Hs in Hh.
  now rewrite (HT_check_slot _ _ _ Hv Hh), (HT_find_slot _ _ _ Hv Hh), Hc, Hf.
Qed.

End Frame.

(** X5. [HT_add] of a key changes nothing for any other key, colliding or
    not: [HT_check] and [HT_find] return for it what they returned
    before. *)
Theorem HT_add_keeps_other_keys `{Platform}
    (h_table h_table' : HT_Ht) (k k' : string) (v : Z) :
  HT_valid h_table ->
  HT_add h_table k v = Ok h_table' ->
  k' <> k ->
  HT_check h_table' k' = HT_check h_table k' /\
  HT_find h_table' k' = HT_find h_table k'.
Proof.
  intros Hv Ha Hk. destruct (HT_add_inv _ _ _ _ Hv Ha) as (head & Hh & ->).
  apply (set_bucket_same_scans _ _ head); [exact Hv | exact Hh | |].
  - rewrite _HT_check_cons. cbn [key]. now rewrite bool_decide_eq_false_2.
  - rewrite _HT_find_cons. cbn [key]. now rewrite bool_decide_eq_false_2.
Qed.

Lemma HT_add_keeps_other_keys_witness :
  @HT_check signed_char_platform
    (set_bucket demo_table 1 ({| key := "e"; value := 9 |} ::
       [{| key := "a"; value := 1 |}; {| key := "c"; value := 3 |};
        {| key := "a"; value := 5 |}])) "c"
  = @HT_check signed_char_platform demo_table "c" /\
  @HT_find signed_char_platform
    (set_bucket demo_table 1 ({| key := "e"; value := 9 |} ::
       [{| key := "a"; value := 1 |}; {| key := "c"; value := 3 |};
        {| key := "a"; value := 5 |}])) "c"
  = @HT_find signed_char_platform demo_table "c".
Proof.
  apply (@HT_add_keeps_other_keys signed_char_platform demo_table _ "e" "c" 9).
  - split; [unfold UINT_MAX; cbn; lia | reflexivity].
  - reflexivity.
  - discriminate.
Defined.

(** X6. [HT_change] of a key leaves [HT_check] as it was for every key and
    [HT_find] as it was for every other key. *)
Theorem HT_change_keeps_other_keys `{Platform}
    (h_table h_table' : HT_Ht) (k k' : string) (v : Z) :
  HT_valid h_table ->
  HT_change h_table k v = Ok h_table' ->
  HT_check h_table' k' = HT_check h_table k' /\
  (k' <> k -> HT_find h_table' k' = HT_find h_table k').
Proof.
  intros Hv Hc.
  destruct (HT_change_inv _ _ _ _ Hv Hc) as (head & i & n & Hh & Hm & ->).
  destruct Hm as (Hi & Hkey & _).
  pose proof (lookup_lt_Some _ _ _ Hh) as Hlt. split.
  - rewrite HT_check_set_bucket by assumption.
    case_decide as Hs; [| reflexivity].
    rewrite <- Hs in Hh.
    now rewrite (HT_check_slot _ _ _ Hv Hh), (_HT_check_insert_value _ _ _ _ _ Hi).
  - intros Hk.
    apply (set_bucket_same_scans _ _ head); [exact Hv | exact Hh | |].
    + exact (_HT_check_insert_value _ _ _ _ _ Hi).
    + apply (_HT_find_insert_value_other _ _ _ _ _ Hi). congruence.
Qed.

Lemma HT_change_keeps_other_keys_witness :
  @HT_check signed_char_platform
    (set_bucket demo_table 1
       [{| key := "a"; value := 1 |}; {| key := "c"; value := 8 |};
        {| key := "a"; value := 5 |}]) "a"
  = @HT_check signed_char_platform demo_table "a" /\
  ("a" <> "c" ->
   @HT_find signed_char_platform
     (set_bucket demo_table 1
        [{| key := "a"; value := 1 |}; {| key := "c"; value := 8 |};
         {| key := "a"; value := 5 |}]) "a"
   = @HT_find signed_char_platform demo_table "a").
Proof.
  apply (@HT_change_keeps_other_keys signed_char_platform demo_table _ "c" "a" 8).
  - split; [unfold UINT_MAX; cbn; lia | reflexivity].
  - reflexivity.
Defined.

(** X7. When the first entry of the chain does not carry the key, [HT_remove]
    of the key changes nothing for any other key: [HT_check] and [HT_find]
    return for it what they returned before. *)
Theorem HT_remove_past_head_keeps_other_keys `{Platform}
    (h_table h_table' : HT_Ht) (k k' : string) (hash_val : Z)
    (n : HT_Node) (rest : list HT_Node) :
  HT_valid h_table ->
  HT_hash k (to_int (capacity h_table)) = Ok hash_val ->
  bucket h_table hash_val = Ok (n :: rest) ->
  key n <> k ->
  HT_remove h_table k = Ok h_table' ->
  k' <> k ->
  HT_check h_table' k' = HT_check h_table k' /\
  HT_find h_table' k' = HT_find h_table k'.
Proof.
  intros Hv Hhash Hb Hn Hrm Hk.
  rewrite (HT_hash_slot _ _ Hv) in Hhash. injection Hhash as <-.
  destruct (HT_remove_inv _ _ _ Hv Hrm) as (head & head' & Hh & Hr & ->).
  rewrite (bucket_slot _ _ _ Hh) in Hb. injection Hb as ->.
  apply _HT_remove_node_inv in Hr as [(m & rest' & [= <- <-] & Hm & _) | (i & m & Hm & ->)];
    [contradiction |].
  destruct Hm as (Hi & Hkey & _).
  apply (set_bucket_same_scans _ _ (n :: rest)); [exact Hv | exact Hh | |];
    apply (scans_delete_other _ _ _ _ Hi); congruence.
Qed.

Lemma HT_remove_past_head_keeps_other_keys_witness :
  @HT_check signed_char_platform
    (set_bucket demo_table 1
       [{| key := "a"; value := 1 |}; {| key := "a"; value := 5 |}]) "a"
  = @HT_check signed_char_platform demo_table "a" /\
  @HT_find signed_char_platform
    (set_bucket demo_table 1
       [{| key := "a"; value := 1 |}; {| key := "a"; value := 5 |}]) "a"
  = @HT_find signed_char_platform demo_table "a".
Proof.
  apply (@HT_remove_past_head_keeps_other_keys signed_char_platform
           demo_table _ "c" "a" 1 {| key := "a"; value := 1 |}
           [{| key := "c"; value := 3 |}; {| key := "a"; value := 5 |}]).
  - split; [unfold UINT_MAX; cbn; lia | reflexivity].
  - reflexivity.
  - reflexivity.
  - discriminate.
  - reflexivity.
  - discriminate.
Defined.

(** X8. When the first entry of the chain carries the key, [HT_remove] leaves
    that slot null whatever followed the entry: afterwards every key that
    hashes to the slot is absent, and the keys of the other slots are as
    before. *)
Theorem HT_remove_at_head_empties_slot `{Platform}
    (h_table : HT_Ht) (k k' : string) (hash_val : Z)
    (n : HT_Node) (rest : list HT_Node) :
  HT_valid h_table ->
  HT_hash k (to_int (capacity h_table)) = Ok hash_val ->
  bucket h_table hash_val = Ok (n :: rest) ->
  key n = k ->
  exists h_table',
    HT_remove h_table k = Ok h_table' /\
    nodes h_table' = <[Z.to_nat hash_val := []]> (nodes h_table) /\
    (HT_hash k' (to_int (capacity h_table)) = Ok hash_val ->
     HT_check h_table' k' = Ok 0 /\ HT_find h_table' k' = Fault NullDeref) /\
    (HT_hash k' (to_int (capacity h_table)) <> Ok hash_val ->
     HT_check h_table' k' = HT_check h_table k' /\
     HT_find h_table' k' = HT_find h_table k').
Proof.
  intros Hv Hhash Hb Hn. pose proof Hhash as Hhash'.
  rewrite (HT_hash_slot _ _ Hv) in Hhash. injection Hhash as <-.
  destruct (slot_allocated h_table k Hv) as [head Hh].
  rewrite (bucket_slot _ _ _ Hh) in Hb. injection Hb as ->.
  pose proof (lookup_lt_Some _ _ _ Hh) as Hlt.
  eexists. split; [exact (HT_remove_head _ _ _ _ Hv Hh Hn) |].
  split; [reflexivity |].
  change {| capacity := capacity h_table;
            nodes := <[Z.to_nat (slot h_table k) := []]> (nodes h_table) |}
    with (set_bucket h_table (slot h_table k) []).
  rewrite HT_check_set_bucket, HT_find_set_bucket by assumption.
  rewrite <- Hhash'. split; intros Hs.
  - apply (same_slot_iff _ _ _ Hv) in Hs. now rewrite !decide_True.
  - rewrite !decide_False; [split; reflexivity | |];
      intros Hs'; apply Hs; now apply same_slot_iff.
Qed.

Lemma HT_remove_at_head_empties_slot_witness :
  exists h_table',
    @HT_remove signed_char_platform demo_table "b" = Ok h_table' /\
    nodes h_table' = <[Z.to_nat 0 := []]> (nodes demo_table) /\
    (@HT_hash signed_char_platform "d" (to_int (capacity demo_table)) = Ok 0 ->
     @HT_check signed_char_platform h_table' "d" = Ok 0 /\
     @HT_find signed_char_platform h_table' "d" = Fault NullDeref) /\
    (@HT_hash signed_char_platform "d" (to_int (capacity demo_table)) <> Ok 0 ->
     @HT_check signed_char_platform h_table' "d"
       = @HT_check signed_char_platform demo_table "d" /\
     @HT_find signed_char_platform h_table' "d"
       = @HT_find signed_char_platform demo_table "d").
Proof.
  apply (@HT_remove_at_head_empties_slot signed_char_platform
           demo_table "b" "d" 0 {| key := "b"; value := 2 |}
           [{| key := "d"; value := 4 |}]).
  - split; [unfold UINT_MAX; cbn; lia | reflexivity].
  - reflexivity.
  - reflexivity.
  - reflexivity.
Defined.

(** ** Removal of a key stored once, and of a key just added *)

Lemma filter_key_delete (head : list HT_Node) (k : string) i n :
  head !! i = Some n -> key n = k ->
  length (filter (fun m => key m = k) head) =
  S (length (filter (fun m => key m = k) (delete i head))).
Proof.
  intros Hi Hk. pose proof (delete_Permutation head i n Hi) as Hp.
  rewrite Hp at 1. now rewrite filter_cons_True.
Qed.

(** X9. When exactly one entry of the chain carries the key, [HT_remove]
    returns and the key is absent afterwards. *)
Theorem HT_remove_single_entry `{Platform}
    (h_table : HT_Ht) (k : string) (hash_val : Z) (head : list HT_Node) :
  HT_valid h_table ->
  HT_hash k (to_int (capacity h_table)) = Ok hash_val ->
  bucket h_table hash_val = Ok head ->
  length (filter (fun n => key n = k) head) = 1%nat ->
  exists h_table',
    HT_remove h_table k = Ok h_table' /\ HT_check h_table' k = Ok 0.
Proof.
  intros Hv Hhash Hb Hone.
  rewrite (HT_hash_slot _ _ Hv) in Hhash. injection Hhash as <-.
  destruct (slot_allocated h_table k Hv) as [head0 Hh].
  rewrite (bucket_slot _ _ _ Hh) in Hb. injection Hb as ->.
  pose proof (lookup_lt_Some _ _ _ Hh) as Hlt.
  assert (Hc : _HT_check head k = 1).
  { destruct (_HT_check_bool head k) as [H0 | H1]; [| exact H1].
    rewrite _HT_check_absent in H0.
    destruct (filter (fun n => key n = k) head) as [| m l] eqn:E; [discriminate |].
    assert (Hm : m ∈ filter (fun n => key n = k) head) by (rewrite E; left).
    apply list_elem_of_filter in Hm as [Hk Hin]. now destruct (H0 m Hin). }
  apply _HT_check_found in Hc as (i & n & Hm). destruct i as [| i].
  - destruct head as [| m rest]; [now apply first_match_nil in Hm |].
    apply first_match_inv in Hm as [(_ & _ & Hk) | (i' & Hi & _)]; [| discriminate].
    eexists. split; [exact (HT_remove_head _ _ _ _ Hv Hh Hk) |].
    change {| capacity := capacity h_table;
              nodes := <[Z.to_nat (slot h_table k) := []]> (nodes h_table) |}
      with (set_bucket h_table (slot h_table k) []).
    rewrite HT_check_set_bucket by assumption. now rewrite decide_True.
  - eexists. split; [exact (HT_remove_interior _ _ _ _ _ Hv Hh Hm) |].
    change {| capacity := capacity h_table;
              nodes := <[Z.to_nat (slot h_table k) := delete (S i) head]> (nodes h_table) |}
      with (set_bucket h_table (slot h_table k) (delete (S i) head)).
    rewrite HT_check_set_bucket by assumption. rewrite decide_True by reflexivity.
    f_equal. apply _HT_check_absent. intros m Hin Hk.
    destruct Hm as (Hi & Hkey & _).
    rewrite (filter_key_delete head k (S i) n Hi Hkey) in Hone.
    injection Hone as Hone. apply length_zero_iff_nil in Hone.
    assert (Hf : m ∈ filter (fun n => key n = k) (delete (S i) head))
      by (apply list_elem_of_filter; auto).
    rewrite Hone in Hf. inversion Hf.
Qed.

Lemma HT_remove_single_entry_witness :
  exists h_table',
    @HT_remove signed_char_platform demo_table "c" = Ok h_table' /\
    @HT_check signed_char_platform h_table' "c" = Ok 0.
Proof.
  apply (@HT_remove_single_entry signed_char_platform demo_table "c" 1
           [{| key := "a"; value := 1 |}; {| key := "c"; value := 3 |};
            {| key := "a"; value := 5 |}]).
  - split; [unfold UINT_MAX; cbn; lia | reflexivity].
  - reflexivity.
  - reflexivity.
  - reflexivity.
Defined.

(** X10. [HT_add] of a pair followed by [HT_remove] of its key: both return,
    the key is absent afterwards, and the slot of the key is null. The
    table is the one before the two calls exactly when that slot was
    null. *)
Theorem HT_add_then_remove `{Platform} (h_table : HT_Ht) (k : string) (v : Z) :
  HT_valid h_table ->
  exists hash_val head h_table1 h_table2,
    HT_hash k (to_int (capacity h_table)) = Ok hash_val /\
    bucket h_table hash_val = Ok head /\
    HT_add h_table k v = Ok h_table1 /\
    HT_remove h_table1 k = Ok h_table2 /\
    capacity h_table2 = capacity h_table /\
    nodes h_table2 = <[Z.to_nat hash_val := []]> (nodes h_table) /\
    HT_check h_table2 k = Ok 0 /\
    (h_table2 = h_table <-> head = []).
Proof.
  intros Hv. destruct (slot_allocated h_table k Hv) as [head Hh].
  pose proof (lookup_lt_Some _ _ _ Hh) as Hlt.
  destruct (HT_add_remove_empties_slot h_table k v Hv) as (h_table1 & Ha & Hr).
  exists (slot h_table k), head, h_table1. eexists.
  split; [now apply HT_hash_slot |]. split; [now apply bucket_slot |].
  split; [exact Ha |]. split; [exact Hr |].
  split; [reflexivity |]. split; [reflexivity |]. split.
  - change {| capacity := capacity h_table;
              nodes := <[Z.to_nat (slot h_table k) := []]> (nodes h_table) |}
      with (set_bucket h_table (slot h_table k) []).
    rewrite HT_check_set_bucket by assumption. now rewrite decide_True.
  - split.
    + intros Heq. apply (f_equal nodes) in Heq. cbn in Heq.
      apply (f_equal (fun l => l !! Z.to_nat (slot h_table k))) in Heq.
      rewrite list_lookup_insert_eq in Heq by exact Hlt. congruence.
    + intros ->. destruct h_table as [c ns]. cbn in *. f_equal.
      now apply list_insert_id.
Qed.

Lemma HT_add_then_remove_witness :
  exists hash_val head h_table1 h_table2,
    @HT_hash signed_char_platform "e" (to_int (capacity demo_table)) = Ok hash_val /\
    bucket demo_table hash_val = Ok head /\
    @HT_add signed_char_platform demo_table "e" 9 = Ok h_table1 /\
    @HT_remove signed_char_platform h_table1 "e" = Ok h_table2 /\
    capacity h_table2 = capacity demo_table /\
    nodes h_table2 = <[Z.to_nat hash_val := []]> (nodes demo_table) /\
    @HT_check signed_char_platform h_table2 "e" = Ok 0 /\
    (h_table2 = demo_table <-> head = []).
Proof.
  apply (@HT_add_then_remove signed_char_platform demo_table "e" 9).
  split; [unfold UINT_MAX; cbn; lia | reflexivity].
Defined.

(** ** The hash on any size, and on any platform *)

(** X11. [HT_hash] on every [int] size: it divides by zero exactly when the
    size is 0; a negative size is read as the unsigned number [size + 2^32],
    so the call returns, with an index below that number. *)
Theorem HT_hash_any_int_size `{Platform} (k : string) (size : Z) :
  - INT_MAX - 1 <= size <= INT_MAX ->
  (HT_hash k size = Fault DivByZero <-> size = 0) /\
  (size < 0 ->
   HT_hash k size =
     Ok (horner (map char_value (list_ascii_of_string k)) mod (size + 2 ^ 32)) /\
   exists h, HT_hash k size = Ok h /\ 0 <= h < size + 2 ^ 32).
Proof.
  intros Hs. unfold INT_MAX in Hs.
  assert (Hneg : size < 0 -> to_uint size = size + 2 ^ 32).
  { intros Hlt. unfold to_uint, UINT_MODULUS.
    replace size with ((size + 2 ^ 32) + (-1) * 2 ^ 32) at 1 by ring.
    rewrite Z.mod_add by lia. apply Z.mod_small. lia. }
  assert (Hpos : 0 <= size -> to_uint size = size).
  { intros Hle. apply to_uint_small. unfold UINT_MAX. lia. }
  split.
  - split.
    + intros Hf. destruct (Z.eq_dec (to_uint size) 0) as [Hz | Hnz].
      * destruct (Z.lt_ge_cases size 0) as [Hlt | Hge];
          [rewrite (Hneg Hlt) in Hz | rewrite (Hpos Hge) in Hz]; lia.
      * rewrite (HT_hash_unsigned _ _ Hnz) in Hf. discriminate.
    + intros ->. now apply HT_hash_zero.
  - intros Hlt. pose proof (Hneg Hlt) as Hu.
    assert (Hnz : to_uint size <> 0) by lia.
    rewrite (HT_hash_unsigned _ _ Hnz), Hu. split; [reflexivity |].
    eexists. split; [reflexivity |]. apply hash_spec_range. lia.
Qed.

Lemma HT_hash_any_int_size_witness :
  (@HT_hash signed_char_platform "bob" (-1) = Fault DivByZero <-> -1 = 0) /\
  (-1 < 0 ->
   @HT_hash signed_char_platform "bob" (-1) =
     Ok (horner [98; 111; 98] mod (-1 + 2 ^ 32)) /\
   exists h, @HT_hash signed_char_platform "bob" (-1) = Ok h /\
             0 <= h < -1 + 2 ^ 32).
Proof.
  apply (@HT_hash_any_int_size signed_char_platform "bob" (-1)).
  unfold INT_MAX. lia.
Defined.

Lemma char_value_7bit (P1 P2 : Platform) (c : ascii) :
  byte_value c < 128 -> @char_value P1 c = @char_value P2 c.
Proof.
  intros Hc. rewrite !char_value_byte by (right; exact Hc). reflexivity.
Qed.

Lemma HT_hash_loop_7bit (P1 P2 : Platform) (k : string) (hashval : Z) :
  Forall (fun c => byte_value c < 128) (list_ascii_of_string k) ->
  @HT_hash_loop P1 k hashval = @HT_hash_loop P2 k hashval.
Proof.
  revert hashval. induction k as [| c k IH]; intros hashval Hk; cbn.
  - reflexivity.
  - cbn in Hk. apply Forall_cons in Hk as [Hc Hk].
    rewrite (char_value_7bit P1 P2 c Hc). now apply IH.
Qed.

(** X12. On a key of 7-bit characters the hash does not depend on whether
    plain [char] is signed: two platforms compute the same index (or both
    divide by zero). *)
Theorem HT_hash_7bit_key_any_platform (P1 P2 : Platform) (k : string) (size : Z) :
  Forall (fun c => byte_value c < 128) (list_ascii_of_string k) ->
  @HT_hash P1 k size = @HT_hash P2 k size.
Proof.
  intros Hk. unfold HT_hash. now rewrite (HT_hash_loop_7bit P1 P2 k 0 Hk).
Qed.

Lemma HT_hash_7bit_key_any_platform_witness :
  @HT_hash signed_char_platform "alice" 10 = @HT_hash unsigned_char_platform "alice" 10.
Proof.
  apply (HT_hash_7bit_key_any_platform signed_char_platform unsigned_char_platform
           "alice" 10).
  cbn. repeat constructor.
Defined.

(** ** The membership helper of the tests *)

Lemma _is_inside_loop_cons k k0 rest remaining :
  _is_inside_loop k (k0 :: rest) remaining =
  Ok (if bool_decide ((0 < remaining)%nat /\ k = k0) then 1 else 0).
Proof.
  induction remaining as [| r IH].
  - cbn. rewrite bool_decide_eq_false_2; [reflexivity | lia].
  - cbn [_is_inside_loop].
    change (array_get (k0 :: rest) 0) with (Ok k0). cbn [mbind result_bind].
    rewrite strcmp_eqb.
    destruct (decide (k = k0)) as [E | E].
    + rewrite !bool_decide_eq_true_2; [reflexivity | split; [lia | exact E] | exact E].
    + rewrite bool_decide_eq_false_2 by exact E. rewrite IH.
      rewrite !bool_decide_eq_false_2; [reflexivity | tauto | tauto].
Qed.

(** X13. [_is_inside] compares the key with the first element of the array
    only: on a non-empty array it returns 1 exactly when [amount] is
    positive and the key equals [keys[0]], whatever the other elements are,
    so a key that sits at a later index is reported missing. On an empty
    array it reads out of bounds as soon as [amount] is positive. *)
Theorem _is_inside_reads_first_only (k k0 : string) (rest : list string) (amount : Z) :
  _is_inside k (k0 :: rest) amount =
    Ok (if bool_decide (0 < amount /\ k = k0) then 1 else 0) /\
  _is_inside k [] amount = (if 0 <? amount then Fault OutOfBounds else Ok 0).
Proof.
  unfold _is_inside. split.
  - rewrite _is_inside_loop_cons. f_equal.
    destruct (decide (0 < amount /\ k = k0)) as [E | E].
    + rewrite !bool_decide_eq_true_2; [reflexivity | exact E |].
      destruct E. split; [lia | assumption].
    + rewrite !bool_decide_eq_false_2; [reflexivity | exact E |].
      intros [? ?]. apply E. split; [lia | assumption].
  - destruct (Z.ltb_spec 0 amount) as [Hlt | Hge].
    + destruct (Z.to_nat amount) as [| r] eqn:E; [lia | reflexivity].
    + now replace (Z.to_nat amount) with 0%nat by lia.
Qed.

(** ** A table filled by the tests *)

Lemma array_get_lookup {A : Type} (a : list A) (i : Z) (x : A) :
  0 <= i -> a !! Z.to_nat i = Some x -> array_get a i = Ok x.
Proof.
  intros Hi Hx. unfold array_get.
  destruct (Z.ltb_spec i 0); [lia |]. now rewrite Hx.
Qed.

Section TesterFacts.
Context `{Platform}.

Lemma HT_add_found h_table k v h_table' :
  HT_valid h_table -> HT_add h_table k v = Ok h_table' ->
  HT_check h_table' k = Ok 1 /\ HT_find h_table' k = Ok v.
Proof.
  intros Hv Ha. destruct (HT_add_inv _ _ _ _ Hv Ha) as (head & Hh & ->).
  pose proof (lookup_lt_Some _ _ _ Hh) as Hlt.
  rewrite HT_check_set_bucket, HT_find_set_bucket by assumption.
  rewrite !decide_True by reflexivity.
  rewrite _HT_check_cons, _HT_find_cons. cbn [key value].
  now rewrite !bool_decide_eq_true_2.
Qed.

Lemma HT_add_other h_table k v h_table' k' :
  HT_valid h_table -> HT_add h_table k v = Ok h_table' -> k' <> k ->
  HT_check h_table' k' = HT_check h_table k' /\
  HT_find h_table' k' = HT_find h_table k'.
Proof.
  intros Hv Ha Hk. destruct (HT_add_inv _ _ _ _ Hv Ha) as (head & Hh & ->).
  apply (set_bucket_same_scans _ _ head); [exact Hv | exact Hh | |].
  - rewrite _HT_check_cons. cbn [key]. now rewrite bool_decide_eq_false_2.
  - rewrite _HT_find_cons. cbn [key]. now rewrite bool_decide_eq_false_2.
Qed.

Lemma HT_add_holds h_table k v h_table' done :
  HT_valid h_table -> HT_holds h_table done ->
  HT_add h_table k v = Ok h_table' ->
  HT_holds h_table' (done ++ [k]).
Proof.
  intros Hv Hd Ha. destruct (HT_add_inv _ _ _ _ Hv Ha) as (head & Hh & ->).
  pose proof (lookup_lt_Some _ _ _ Hh) as Hlt.
  intros b head1 Hb.
  change (fun k0 => Z.to_nat (slot (set_bucket h_table (slot h_table k)
            ({| key := k; value := v |} :: head)) k0) = b)
    with (fun k0 => Z.to_nat (slot h_table k0) = b).
  rewrite filter_app, reverse_app. cbn in Hb.
  destruct (decide (Z.to_nat (slot h_table k) = b)) as [<- | Hne].
  - rewrite list_lookup_insert_eq in Hb by exact Hlt. injection Hb as <-.
    rewrite filter_cons_True by reflexivity. cbn. f_equal. exact (Hd _ _ Hh).
  - rewrite list_lookup_insert_ne in Hb by exact Hne.
    rewrite filter_cons_False by exact Hne. cbn. exact (Hd _ _ Hb).
Qed.

Lemma _random_ht_loop_spec ks vs remaining :
  forall t i,
    HT_valid t -> 0 <= i ->
    i + Z.of_nat remaining <= INT_MAX ->
    (Z.to_nat i + remaining <= length ks)%nat ->
    (Z.to_nat i + remaining <= length vs)%nat ->
    exists t',
      _random_ht_loop t ks vs remaining i = Ok t' /\
      HT_valid t' /\ capacity t' = capacity t /\
      length (nodes t') = length (nodes t) /\
      (forall done, HT_holds t done ->
         HT_holds t' (done ++ take remaining (drop (Z.to_nat i) ks))) /\
      (forall k,
         (forall j, (Z.to_nat i <= j < Z.to_nat i + remaining)%nat -> ks !! j <> Some k) ->
         HT_check t' k = HT_check t k /\ HT_find t' k = HT_find t k) /\
      (forall k j v,
         (Z.to_nat i <= j < Z.to_nat i + remaining)%nat ->
         ks !! j = Some k -> vs !! j = Some v ->
         (forall j', (j < j' < Z.to_nat i + remaining)%nat -> ks !! j' <> Some k) ->
         HT_check t' k = Ok 1 /\ HT_find t' k = Ok v).
Proof.
  induction remaining as [| r IH]; intros t i Hv Hi Hmax Hks Hvs.
  - exists t. split; [reflexivity |]. split; [exact Hv |].
    split; [reflexivity |]. split; [reflexivity |]. split; [| split].
    + intros done Hd. now rewrite take_0, app_nil_r.
    + intros k _. split; reflexivity.
    + intros k j v Hj. lia.
  - destruct (lookup_lt_is_Some_2 ks (Z.to_nat i)) as [k0 Hk0]; [lia |].
    destruct (lookup_lt_is_Some_2 vs (Z.to_nat i)) as [v0 Hv0]; [lia |].
    destruct (HT_add_valid t k0 v0 Hv) as (t1 & Ha & Hv1).
    assert (Hi1 : Z.to_nat (i + 1) = S (Z.to_nat i)) by lia.
    destruct (IH t1 (i + 1) Hv1) as (t' & Hloop & Hv' & Hcap & Hlen & Hhold & Hframe & Hlast);
      [lia | lia | lia | lia |].
    destruct (HT_add_inv _ _ _ _ Hv Ha) as (head & Hh & Ht1).
    exists t'. split.
    { cbn [_random_ht_loop].
      rewrite (array_get_lookup _ _ _ Hi Hk0), (array_get_lookup _ _ _ Hi Hv0).
      cbn [mbind result_bind]. rewrite Ha. cbn [mbind result_bind].
      rewrite int_incr_ok by lia. exact Hloop. }
    split; [exact Hv' |].
    split; [rewrite Hcap, Ht1; reflexivity |].
    split; [rewrite Hlen, Ht1; cbn; apply length_insert |].
    split; [| split].
    + intros done Hd. rewrite (drop_S _ _ _ Hk0). cbn [take].
      rewrite cons_middle, app_assoc, <- Hi1.
      apply Hhold. exact (HT_add_holds _ _ _ _ _ Hv Hd Ha).
    + intros k Hnone.
      destruct (Hframe k) as [Hc Hf].
      { intros j Hj. apply Hnone. lia. }
      assert (Hk : k <> k0).
      { intros ->. apply (Hnone (Z.to_nat i)); [lia | exact Hk0]. }
      destruct (HT_add_other _ _ _ _ k Hv Ha Hk) as [Hc1 Hf1].
      split; congruence.
    + intros k j v Hj Hkj Hvj Hafter.
      destruct (decide (j = Z.to_nat i)) as [-> | Hne].
      * assert (k = k0) as -> by congruence. assert (v = v0) as -> by congruence.
        destruct (Hframe k0) as [Hc Hf].
        { intros j' Hj'. apply Hafter. lia. }
        destruct (HT_add_found _ _ _ _ Hv Ha) as [Hc1 Hf1].
        split; congruence.
      * apply (Hlast k j v); [lia | exact Hkj | exact Hvj |].
        intros j' Hj'. apply Hafter. lia.
Qed.

Lemma HT_holds_fresh size : HT_holds {| capacity := size; nodes := replicate (Z.to_nat size) [] |} [].
Proof.
  intros b head Hb. cbn in Hb. apply lookup_replicate in Hb as [-> _]. reflexivity.
Qed.

Lemma _test_find_loop_passes (ht_rand : rand_ht) remaining :
  forall i,
    0 <= i ->
    (Z.to_nat i + remaining <= length (keys ht_rand))%nat ->
    (Z.to_nat i + remaining <= length (values ht_rand))%nat ->
    (forall j k v, keys ht_rand !! j = Some k -> values ht_rand !! j = Some v ->
                   HT_find (h_table ht_rand) k = Ok v) ->
    _test_find_loop ht_rand remaining i = Ok (replicate remaining true).
Proof.
  induction remaining as [| r IH]; intros i Hi Hks Hvs Hall; [reflexivity |].
  destruct (lookup_lt_is_Some_2 (keys ht_rand) (Z.to_nat i)) as [k0 Hk0]; [lia |].
  destruct (lookup_lt_is_Some_2 (values ht_rand) (Z.to_nat i)) as [v0 Hv0]; [lia |].
  cbn [_test_find_loop].
  rewrite (array_get_lookup _ _ _ Hi Hk0). cbn [mbind result_bind].
  rewrite (Hall _ _ _ Hk0 Hv0). cbn [mbind result_bind].
  rewrite (array_get_lookup _ _ _ Hi Hv0). cbn [mbind result_bind].
  rewrite (IH (i + 1)) by (try lia; exact Hall). cbn [mbind result_bind].
  now rewrite Z.eqb_refl.
Qed.

End TesterFacts.

(** X14. The table that [_random_ht] fills from the arrays [ks] and [vs]:
    the call returns for every size from 1 to [INT_MAX] and every number of
    keys up to [INT_MAX] (the range in which the [int] counters of its loops
    do not overflow), a key of [ks] is present and [HT_find] returns the
    value paired with its last occurrence in [ks], and a key that is not in
    [ks] is absent. *)
Theorem _random_ht_last_value_wins `{Platform}
    (size amount_keys ksize : Z) (ks : list string) (vs : list Z) :
  0 < size <= INT_MAX -> 0 <= amount_keys <= INT_MAX ->
  length ks = Z.to_nat amount_keys -> length vs = Z.to_nat amount_keys ->
  exists ht_rand,
    _random_ht size amount_keys ksize ks vs = Ok ht_rand /\
    keys ht_rand = ks /\ values ht_rand = vs /\
    HT_valid (h_table ht_rand) /\ capacity (h_table ht_rand) = size /\
    (forall j k v,
       ks !! j = Some k -> vs !! j = Some v ->
       (forall j', (j < j')%nat -> ks !! j' <> Some k) ->
       HT_check (h_table ht_rand) k = Ok 1 /\ HT_find (h_table ht_rand) k = Ok v) /\
    (forall k, k ∉ ks -> HT_check (h_table ht_rand) k = Ok 0).
Proof.
  intros Hs Ham Hks Hvs.
  set (t0 := {| capacity := size; nodes := replicate (Z.to_nat size) [] |}).
  assert (Hv0 : HT_valid t0).
  { split; cbn; [unfold INT_MAX, UINT_MAX in *; lia | apply length_replicate]. }
  destruct (_random_ht_loop_spec ks vs (Z.to_nat amount_keys) t0 0 Hv0)
    as (t' & Hloop & Hv' & Hcap & Hlen & Hhold & Hframe & Hlast);
    [lia | lia | lia | lia |].
  eexists. split.
  { unfold _random_ht. rewrite HT_create_ok by lia. cbn [mbind result_bind].
    fold t0. rewrite Hloop. reflexivity. }
  cbn [keys values h_table].
  split; [reflexivity |]. split; [reflexivity |]. split; [exact Hv' |].
  split; [exact Hcap |]. split.
  - intros j k v Hkj Hvj Hafter.
    apply (Hlast k j v); [| exact Hkj | exact Hvj | intros j' Hj'; apply Hafter; lia].
    apply lookup_lt_Some in Hkj. lia.
  - intros k Hk. destruct (Hframe k) as [Hc _].
    + intros j _ Hj. apply Hk. apply list_elem_of_lookup. eauto.
    + rewrite Hc. destruct (slot_allocated t0 k Hv0) as [head Hh].
      rewrite (HT_check_slot _ _ _ Hv0 Hh). cbn in Hh.
      now apply lookup_replicate in Hh as [-> _].
Qed.

Lemma _random_ht_last_value_wins_witness :
  exists ht_rand,
    @_random_ht signed_char_platform 2 3 1 ["a"; "b"; "a"] [1; 2; 3] = Ok ht_rand /\
    keys ht_rand = ["a"; "b"; "a"] /\ values ht_rand = [1; 2; 3] /\
    HT_valid (h_table ht_rand) /\ capacity (h_table ht_rand) = 2 /\
    (forall j k v,
       ["a"; "b"; "a"] !! j = Some k -> [1; 2; 3] !! j = Some v ->
       (forall j', (j < j')%nat -> ["a"; "b"; "a"] !! j' <> Some k) ->
       @HT_check signed_char_platform (h_table ht_rand) k = Ok 1 /\
       @HT_find signed_char_platform (h_table ht_rand) k = Ok v) /\
    (forall k, k ∉ ["a"; "b"; "a"] ->
       @HT_check signed_char_platform (h_table ht_rand) k = Ok 0).
Proof.
  apply (@_random_ht_last_value_wins signed_char_platform 2 3 1
           ["a"; "b"; "a"] [1; 2; 3]).
  - unfold INT_MAX. lia.
  - unfold INT_MAX. lia.
  - reflexivity.
  - reflexivity.
Defined.

(** X15. [_test_find] on distinct keys: for every size and number of keys
    that an [int] holds and every outcome of the random generators with
    pairwise distinct keys, the helper returns and every assertion it makes
    holds, whatever the collisions. *)
Theorem _test_find_passes `{Platform}
    (size amount_keys ksize : Z) (ks : list string) (vs : list Z) :
  0 < size <= INT_MAX -> 0 <= amount_keys <= INT_MAX ->
  length ks = Z.to_nat amount_keys -> length vs = Z.to_nat amount_keys ->
  NoDup ks ->
  _test_find size amount_keys ksize ks vs = Ok (replicate (Z.to_nat amount_keys) true).
Proof.
  intros Hs Ham Hks Hvs Hnd. unfold _test_find. unfold INT_MAX in *.
  rewrite !to_uint_small by (unfold UINT_MAX; lia).
  set (t0 := {| capacity := size; nodes := replicate (Z.to_nat size) [] |}).
  assert (Hv0 : HT_valid t0).
  { split; cbn; [unfold UINT_MAX; lia | apply length_replicate]. }
  destruct (_random_ht_loop_spec ks vs (Z.to_nat amount_keys) t0 0 Hv0)
    as (t' & Hloop & _ & _ & _ & _ & _ & Hlast);
    [lia | unfold INT_MAX; lia | lia | lia |].
  unfold _random_ht. rewrite HT_create_ok by (unfold INT_MAX; lia).
  cbn [mbind result_bind].
  fold t0. rewrite Hloop. cbn [mbind result_bind].
  apply _test_find_loop_passes; cbn [keys values h_table]; [lia | lia | lia |].
  intros j k v Hkj Hvj.
  apply (Hlast k j v); [| exact Hkj | exact Hvj |].
  - apply lookup_lt_Some in Hkj. lia.
  - intros j' Hj' Hkj'. pose proof (NoDup_lookup _ _ _ _ Hnd Hkj Hkj'). lia.
Qed.

Lemma _test_find_passes_witness :
  @_test_find signed_char_platform 2 4 1 ["a"; "b"; "c"; "d"] [1; 2; 3; 4]
  = Ok (replicate (Z.to_nat 4) true).
Proof.
  apply (@_test_find_passes signed_char_platform 2 4 1
           ["a"; "b"; "c"; "d"] [1; 2; 3; 4]).
  - unfold INT_MAX. lia.
  - unfold INT_MAX. lia.
  - reflexivity.
  - reflexivity.
  - apply (bool_decide_unpack _). vm_compute. exact I.
Defined.

(** ** Removal in the order of insertion *)

(** The entry that carries the key is the last of its chain and the only
    one: it is unlinked, and the chain before it stays. *)
Lemma _HT_remove_node_last l n k :
  k ∉ map key l -> key n = k -> _HT_remove_node (l ++ [n]) k = Ok l.
Proof.
  intros Hl Hn. induction l as [| m l IH].
  - now apply _HT_remove_node_head.
  - cbn [map] in Hl. apply not_elem_of_cons in Hl as [Hm Hl].
    rewrite <- app_comm_cons.
    rewrite _HT_remove_node_cons, bool_decide_eq_false_2 by congruence.
    destruct l as [| m' l'].
    + cbn [app]. now rewrite bool_decide_eq_true_2.
    + specialize (IH Hl). rewrite <- app_comm_cons in *.
      cbn [map] in Hl. pose proof Hl as Hl'.
      apply not_elem_of_cons in Hl' as [Hm' _].
      rewrite bool_decide_eq_false_2 by congruence.
      rewrite IH. reflexivity.
Qed.

Lemma all_null_replicate (ns : list (list HT_Node)) :
  (forall b head, ns !! b = Some head -> head = []) ->
  ns = replicate (length ns) [].
Proof.
  intros Hall. apply list_eq. intros b.
  destruct (ns !! b) as [head |] eqn:E.
  - rewrite (Hall _ _ E). symmetry. apply lookup_replicate_2.
    now apply lookup_lt_Some in E.
  - symmetry. apply lookup_replicate_None. now apply lookup_ge_None in E.
Qed.

Section RemovalOrder.
Context `{Platform}.

(** Removing the key that was added first. *)
Lemma HT_remove_first_added h_table k ks :
  HT_valid h_table -> HT_holds h_table (k :: ks) -> k ∉ ks ->
  exists h_table',
    HT_remove h_table k = Ok h_table' /\
    HT_valid h_table' /\ HT_holds h_table' ks /\
    capacity h_table' = capacity h_table /\
    length (nodes h_table') = length (nodes h_table) /\
    HT_check h_table' k = Ok 0.
Proof.
  intros Hv Hd Hk. destruct (slot_allocated h_table k Hv) as [head Hh].
  pose proof (lookup_lt_Some _ _ _ Hh) as Hlt.
  pose proof (Hd _ _ Hh) as Hkeys.
  rewrite filter_cons_True, reverse_cons in Hkeys by reflexivity.
  apply fmap_app_inv in Hkeys as (l & l2 & Hl & Hl2 & ->).
  destruct l2 as [| n [| n' l2']]; try discriminate Hl2.
  cbn in Hl2. injection Hl2 as Hn. symmetry in Hn.
  assert (Hnot : k ∉ map key l).
  { change (map key l) with (key <$> l). rewrite <- Hl.
    intros Hin. apply elem_of_reverse, list_elem_of_filter in Hin as [_ Hin].
    contradiction. }
  pose proof (_HT_remove_node_last l n k Hnot Hn) as Hr.
  exists (set_bucket h_table (slot h_table k) l).
  split; [exact (HT_remove_present _ _ _ Hv Hh _ Hr) |].
  split; [now apply set_bucket_valid |]. split; [| split; [| split]].
  - intros b head1 Hb.
    change (fun k0 => Z.to_nat (slot (set_bucket h_table (slot h_table k) l) k0) = b)
      with (fun k0 => Z.to_nat (slot h_table k0) = b).
    cbn in Hb. destruct (decide (Z.to_nat (slot h_table k) = b)) as [<- | Hne].
    + rewrite list_lookup_insert_eq in Hb by exact Hlt. now injection Hb as <-.
    + rewrite list_lookup_insert_ne in Hb by exact Hne.
      rewrite (Hd _ _ Hb). now rewrite filter_cons_False by exact Hne.
  - reflexivity.
  - cbn. apply length_insert.
  - rewrite HT_check_set_bucket by assumption. rewrite decide_True by reflexivity.
    f_equal. apply _HT_check_absent. intros m Hin Hm. apply Hnot.
    rewrite <- Hm. apply list_elem_of_fmap. eauto.
Qed.

Lemma test_remove_loop_in_order ks remaining :
  forall t i,
    HT_valid t -> 0 <= i ->
    (Z.to_nat i + remaining = length ks)%nat ->
    NoDup (drop (Z.to_nat i) ks) ->
    HT_holds t (drop (Z.to_nat i) ks) ->
    exists t',
      test_remove_loop t ks remaining i = Ok (t', replicate remaining true) /\
      HT_valid t' /\ HT_holds t' [] /\
      capacity t' = capacity t /\ length (nodes t') = length (nodes t).
Proof.
  induction remaining as [| r IH]; intros t i Hv Hi Hlen Hnd Hd.
  - exists t. rewrite drop_ge in Hd by lia. auto 6.
  - destruct (lookup_lt_is_Some_2 ks (Z.to_nat i)) as [k0 Hk0]; [lia |].
    rewrite (drop_S _ _ _ Hk0) in Hnd, Hd.
    apply NoDup_cons in Hnd as [Hk Hnd].
    destruct (HT_remove_first_added t k0 _ Hv Hd Hk)
      as (t1 & Hr & Hv1 & Hd1 & Hcap1 & Hlen1 & Hc1).
    assert (Hi1 : Z.to_nat (i + 1) = S (Z.to_nat i)) by lia.
    destruct (IH t1 (i + 1) Hv1) as (t' & Hloop & Hv' & Hd' & Hcap' & Hlen');
      [lia | lia | now rewrite Hi1 | now rewrite Hi1 |].
    exists t'. split.
    { cbn [test_remove_loop]. rewrite (array_get_lookup _ _ _ Hi Hk0).
      cbn [mbind result_bind]. rewrite Hr. cbn [mbind result_bind].
      rewrite Hc1. cbn [mbind result_bind]. rewrite Hloop. reflexivity. }
    split; [exact Hv' |]. split; [exact Hd' |]. split; congruence.
Qed.

End RemovalOrder.

(** X16. Keys removed in the order they were added: for a table that
    [_random_ht] fills with pairwise distinct keys, of a size from 1 to
    [INT_MAX] and with at most [INT_MAX] keys, the first loop of
    [test_remove] returns, every one of its assertions holds, and the table
    it leaves is the empty table [HT_create] returns for that size. *)
Theorem test_remove_loop_passes `{Platform}
    (size amount_keys ksize : Z) (ks : list string) (vs : list Z) :
  0 < size <= INT_MAX -> 0 <= amount_keys <= INT_MAX ->
  length ks = Z.to_nat amount_keys -> length vs = Z.to_nat amount_keys ->
  NoDup ks ->
  exists ht_rand t',
    _random_ht size amount_keys ksize ks vs = Ok ht_rand /\
    test_remove_loop (h_table ht_rand) (keys ht_rand) (Z.to_nat amount_keys) 0
      = Ok (t', replicate (Z.to_nat amount_keys) true) /\
    HT_create size = Ok t'.
Proof.
  intros Hs Ham Hks Hvs Hnd.
  set (t0 := {| capacity := size; nodes := replicate (Z.to_nat size) [] |}).
  assert (Hv0 : HT_valid t0).
  { split; cbn; [unfold INT_MAX, UINT_MAX in *; lia | apply length_replicate]. }
  destruct (_random_ht_loop_spec ks vs (Z.to_nat amount_keys) t0 0 Hv0)
    as (t1 & Hloop & Hv1 & Hcap1 & Hlen1 & Hhold & _); [lia | lia | lia | lia |].
  pose proof (Hhold [] (HT_holds_fresh size)) as Hd1.
  rewrite app_nil_l, drop_0, take_ge in Hd1 by lia.
  destruct (test_remove_loop_in_order ks (Z.to_nat amount_keys) t1 0 Hv1)
    as (t' & Hrm & Hv' & Hd' & Hcap' & Hlen'); [lia | lia | exact Hnd | exact Hd1 |].
  eexists. exists t'. split.
  { unfold _random_ht. rewrite HT_create_ok by lia. cbn [mbind result_bind].
    fold t0. rewrite Hloop. reflexivity. }
  cbn [h_table keys]. split; [exact Hrm |].
  rewrite HT_create_ok by lia. f_equal. destruct t' as [c ns]. cbn in *.
  rewrite Hcap1 in Hcap'. rewrite Hlen1, length_replicate in Hlen'.
  f_equal; [congruence |].
  rewrite (all_null_replicate ns), Hlen'; [reflexivity |].
  intros b head Hb. pose proof (Hd' b head Hb) as Hkeys. cbn in Hkeys.
  now destruct head.
Qed.

Lemma test_remove_loop_passes_witness :
  exists ht_rand t',
    @_random_ht signed_char_platform 2 4 1 ["a"; "b"; "c"; "d"] [1; 2; 3; 4]
      = Ok ht_rand /\
    @test_remove_loop signed_char_platform (h_table ht_rand) (keys ht_rand)
      (Z.to_nat 4) 0 = Ok (t', replicate (Z.to_nat 4) true) /\
    HT_create 2 = Ok t'.
Proof.
  apply (@test_remove_loop_passes signed_char_platform 2 4 1
           ["a"; "b"; "c"; "d"] [1; 2; 3; 4]).
  - unfold INT_MAX. lia.
  - unfold INT_MAX. lia.
  - reflexivity.
  - reflexivity.
  - apply (bool_decide_unpack _). vm_compute. exact I.
Defined.

(** ** Changing every key in turn *)

Section ChangeLoop.
Context `{Platform}.

Lemma HT_change_step h_table k v :
  HT_valid h_table -> HT_check h_table k = Ok 1 ->
  exists h_table',
    HT_change h_table k v = Ok h_table' /\
    HT_valid h_table' /\
    HT_find h_table' k = Ok v /\
    forall k', HT_check h_table' k' = HT_check h_table k'.
Proof.
  intros Hv Hc. destruct (slot_allocated h_table k Hv) as [head Hh].
  pose proof (lookup_lt_Some _ _ _ Hh) as Hlt.
  rewrite (HT_check_slot _ _ _ Hv Hh) in Hc. injection Hc as Hc.
  apply _HT_check_found in Hc as (i & n & Hm).
  destruct (HT_change_present h_table k v head i n Hv Hh Hm) as [Hch Hf].
  eexists. split; [exact Hch |]. split; [now apply set_bucket_valid |].
  split; [exact Hf |]. intros k'.
  rewrite HT_check_set_bucket by assumption.
  case_decide as Hs; [| reflexivity].
  rewrite <- Hs in Hh. destruct Hm as (Hi & _).
  now rewrite (HT_check_slot _ _ _ Hv Hh), (_HT_check_insert_value _ _ _ _ _ Hi).
Qed.

Lemma test_change_loop_spec ks vs remaining :
  forall t i,
    HT_valid t -> 0 <= i ->
    (Z.to_nat i + remaining <= length ks)%nat ->
    (Z.to_nat i + remaining <= length vs)%nat ->
    (forall k, k ∈ ks -> HT_check t k = Ok 1) ->
    exists t',
      test_change_loop t ks vs remaining i = Ok (t', replicate remaining true) /\
      HT_valid t' /\ capacity t' = capacity t /\
      forall k, HT_check t' k = HT_check t k.
Proof.
  induction remaining as [| r IH]; intros t i Hv Hi Hks Hvs Hall.
  - exists t. auto.
  - destruct (lookup_lt_is_Some_2 ks (Z.to_nat i)) as [k0 Hk0]; [lia |].
    destruct (lookup_lt_is_Some_2 vs (Z.to_nat i)) as [v0 Hv0]; [lia |].
    assert (Hin : k0 ∈ ks) by (apply list_elem_of_lookup; eauto).
    destruct (HT_change_step t k0 v0 Hv (Hall _ Hin)) as (t1 & Hch & Hv1 & Hf & Hsame).
    destruct (IH t1 (i + 1) Hv1) as (t' & Hloop & Hv' & Hcap' & Hsame');
      [lia | lia | lia | |].
    { intros k Hk. rewrite Hsame. now apply Hall. }
    exists t'. split.
    { cbn [test_change_loop].
      rewrite (array_get_lookup _ _ _ Hi Hk0), (array_get_lookup _ _ _ Hi Hv0).
      cbn [mbind result_bind]. rewrite Hch. cbn [mbind result_bind].
      rewrite Hf. cbn [mbind result_bind]. rewrite Hloop. cbn [mbind result_bind fst snd].
      now rewrite Z.eqb_refl. }
    split; [exact Hv' |]. split.
    + rewrite Hcap'. destruct (HT_change_inv _ _ _ _ Hv Hch) as (? & ? & ? & _ & _ & ->).
      reflexivity.
    + intros k. now rewrite Hsame', Hsame.
Qed.

End ChangeLoop.

(** X17. The loop of [test_change] on a table that holds every key of the
    array: it returns, each value read back is the value just written (also
    when a key occurs twice in the array or collides with another), and
    [HT_check] answers for every key as before the loop. *)
Theorem test_change_loop_passes `{Platform}
    (h_table : HT_Ht) (ks : list string) (new_values : list Z) :
  HT_valid h_table ->
  length new_values = length ks ->
  (forall k, k ∈ ks -> HT_check h_table k = Ok 1) ->
  exists h_table',
    test_change_loop h_table ks new_values (length ks) 0
      = Ok (h_table', replicate (length ks) true) /\
    capacity h_table' = capacity h_table /\
    forall k, HT_check h_table' k = HT_check h_table k.
Proof.
  intros Hv Hlen Hall.
  destruct (test_change_loop_spec ks new_values (length ks) h_table 0 Hv)
    as (t' & Hloop & _ & Hcap & Hsame); [lia | lia | lia | exact Hall |].
  eauto.
Qed.

Lemma test_change_loop_passes_witness :
  exists h_table',
    @test_change_loop signed_char_platform demo_table ["a"; "d"; "a"] [7; 8; 9]
      (length ["a"; "d"; "a"]) 0
      = Ok (h_table', replicate (length ["a"; "d"; "a"]) true) /\
    capacity h_table' = capacity demo_table /\
    forall k, @HT_check signed_char_platform h_table' k
              = @HT_check signed_char_platform demo_table k.
Proof.
  apply (@test_change_loop_passes signed_char_platform demo_table
           ["a"; "d"; "a"] [7; 8; 9]).
  - split; [unfold UINT_MAX; cbn; lia | reflexivity].
  - reflexivity.
  - intros k Hk.
    repeat (apply elem_of_cons in Hk as [-> | Hk]; [reflexivity |]).
    inversion Hk.
Defined.

(** ** Printing *)

Lemma _HT_print_map head : _HT_print head = print_node <$> head.
Proof. induction head as [| n next IH]; cbn; [reflexivity | now rewrite IH]. Qed.

Lemma HT_print_loop_spec h_table suf :
  forall pre,
    nodes h_table = (pre ++ suf)%list ->
    Z.of_nat (length pre + length suf) <= INT_MAX ->
    HT_print_loop h_table (length suf) (Z.of_nat (length pre)) =
    Ok (concat (imap (fun j head =>
                        print_bucket (Z.of_nat (length pre + j)) ::
                        match head with
                        | [] => [print_empty]
                        | _ :: _ => print_node <$> head
                        end) suf)).
Proof.
  induction suf as [| head suf IH]; intros pre Hn Hmax; [reflexivity |].
  cbn [length] in Hmax. cbn [length HT_print_loop].
  assert (Hb : bucket h_table (Z.of_nat (length pre)) = Ok head).
  { unfold bucket. rewrite Nat2Z.id, Hn, list_lookup_middle by reflexivity.
    reflexivity. }
  rewrite Hb. cbn [mbind result_bind].
  rewrite int_incr_ok by lia. cbn [mbind result_bind].
  replace (Z.of_nat (length pre) + 1) with (Z.of_nat (length (pre ++ [head])))
    by (rewrite length_app; cbn; lia).
  rewrite (IH (pre ++ [head])%list)
    by (rewrite <- ?app_assoc, ?length_app; cbn; [assumption || lia ..]).
  cbn [mbind result_bind]. rewrite imap_cons. cbn [concat].
  rewrite Nat.add_0_r, _HT_print_map. do 3 f_equal.
  apply imap_ext. intros j head' _. cbn.
  rewrite length_app. cbn. do 2 f_equal. lia.
Qed.

(** X18. [HT_print] on a table with its slots: it returns, and what it
    writes is, slot after slot in index order, the line of the slot index
    followed by the lines of the entries of the chain from head to tail, or
    by the empty marker when the slot is null. *)
Theorem HT_print_lists_every_entry (h_table : HT_Ht) :
  0 <= capacity h_table <= INT_MAX ->
  length (nodes h_table) = Z.to_nat (capacity h_table) ->
  HT_print h_table =
  Ok (concat (imap (fun x head =>
                      print_bucket (Z.of_nat x) ::
                      match head with
                      | [] => [print_empty]
                      | _ :: _ => print_node <$> head
                      end) (nodes h_table))).
Proof.
  intros Hcap Hlen. unfold HT_print. rewrite <- Hlen.
  apply (HT_print_loop_spec h_table (nodes h_table) [] eq_refl).
  cbn [length]. lia.
Qed.

Lemma HT_print_lists_every_entry_witness :
  HT_print demo_table =
  Ok (concat (imap (fun x head =>
                      print_bucket (Z.of_nat x) ::
                      match head with
                      | [] => [print_empty]
                      | _ :: _ => print_node <$> head
                      end) (nodes demo_table))).
Proof.
  apply (HT_print_lists_every_entry demo_table).
  - unfold INT_MAX. cbn. lia.
  - reflexivity.
Defined.

(** ** The table in memory *)

Lemma release_lookup cells h l :
  release cells h !! l = (fun b => if bool_decide (l ∈ cells) then None else b) <$> h !! l.
Proof. unfold release. now rewrite list_lookup_imap. Qed.

Lemma release_length cells h : length (release cells h) = length h.
Proof. unfold release. apply length_imap. Qed.

Lemma release_nil h : release [] h = h.
Proof.
  apply list_eq. intros l. rewrite release_lookup.
  destruct (h !! l); cbn; [| reflexivity].
  rewrite bool_decide_eq_false_2; [reflexivity | inversion 1].
Qed.

Lemma release_ext cells1 cells2 h :
  (forall l, l ∈ cells1 <-> l ∈ cells2) -> release cells1 h = release cells2 h.
Proof.
  intros Heq. apply list_eq. intros l. rewrite !release_lookup.
  destruct (h !! l); cbn; [| reflexivity]. f_equal.
  now rewrite (bool_decide_ext _ _ (Heq l)).
Qed.

Lemma release_outside cells h l : l ∉ cells -> release cells h !! l = h !! l.
Proof.
  intros Hl. rewrite release_lookup. destruct (h !! l); cbn; [| reflexivity].
  now rewrite bool_decide_eq_false_2.
Qed.

Lemma release_inside cells h l b :
  l ∈ cells -> h !! l = Some b -> release cells h !! l = Some None.
Proof.
  intros Hl Hb. rewrite release_lookup, Hb. cbn.
  now rewrite bool_decide_eq_true_2.
Qed.

Lemma release_cons l cells h :
  <[l := None]> (release cells h) = release (l :: cells) h.
Proof.
  apply list_eq. intros l'. rewrite release_lookup.
  destruct (decide (l = l')) as [<- | Hne].
  - destruct (h !! l) as [b |] eqn:E; cbn.
    + rewrite list_lookup_insert_eq
        by (rewrite release_length; now apply lookup_lt_Some in E).
      rewrite bool_decide_eq_true_2; [reflexivity | left].
    + apply lookup_ge_None. rewrite length_insert, release_length.
      now apply lookup_ge_None in E.
  - rewrite list_lookup_insert_ne by exact Hne. rewrite release_lookup.
    destruct (h !! l'); cbn; [| reflexivity]. f_equal.
    rewrite (bool_decide_ext (l' ∈ l :: cells) (l' ∈ cells)); [reflexivity |].
    rewrite elem_of_cons. split; [intros [E | Hin]; [congruence | exact Hin] | now right].
Qed.

Lemma free_release cells h l b :
  h !! l = Some (Some b) -> l ∉ cells ->
  free (release cells h) l = Done (release (l :: cells) h).
Proof.
  intros Hb Hl. unfold free. rewrite (release_outside _ _ _ Hl), Hb.
  now rewrite release_cons.
Qed.

Lemma chain_at_frame h h' p l cells :
  chain_at h p l cells ->
  (forall c, c ∈ cells -> h' !! c = h !! c) ->
  chain_at h' p l cells.
Proof.
  revert p cells. induction l as [| n l IH]; intros p cells Hc Hsame; [exact Hc |].
  destruct Hc as (a & ka & next & cells' & -> & -> & Ha & Hka & Hrest).
  exists a, ka, next, cells'. split; [reflexivity |]. split; [reflexivity |].
  split; [rewrite Hsame; [exact Ha | left] |].
  split; [rewrite Hsame; [exact Hka | right; left] |].
  apply IH; [exact Hrest |]. intros c Hin. apply Hsame. now do 2 right.
Qed.

Lemma chain_at_cells h p l cells :
  chain_at h p l cells ->
  length cells = (2 * length l)%nat /\ forall c, c ∈ cells -> (c < length h)%nat.
Proof.
  revert p cells. induction l as [| n l IH]; intros p cells Hc.
  - destruct Hc as [_ ->]. split; [reflexivity | inversion 1].
  - destruct Hc as (a & ka & next & cells' & -> & -> & Ha & Hka & Hrest).
    destruct (IH _ _ Hrest) as [Hlen Hlt]. split; [cbn; lia |].
    intros c [-> | [-> | Hin]%elem_of_cons]%elem_of_cons.
    + now apply lookup_lt_Some in Ha.
    + now apply lookup_lt_Some in Hka.
    + now apply Hlt.
Qed.

Lemma NoDup_bounded_length (cells : list nat) (n : nat) :
  NoDup cells -> (forall c, c ∈ cells -> (c < n)%nat) -> (length cells <= n)%nat.
Proof.
  intros Hnd Hlt.
  assert (Hle : (length cells <= length (seq 0 n))%nat).
  { apply submseteq_length, NoDup_submseteq; [exact Hnd |].
    intros c Hc. apply elem_of_seq. specialize (Hlt c Hc). lia. }
  now rewrite length_seq in Hle.
Qed.

(** [_HT_destroy_nodes] on a chain, some blocks [done] being released
    already: each node and each key string of the chain is freed, once. *)
Lemma _HT_destroy_nodes_mem_spec h l :
  forall p cells done fuel,
    chain_at h p l cells -> NoDup cells ->
    (forall c, c ∈ cells -> c ∉ done) ->
    (length l <= fuel)%nat ->
    _HT_destroy_nodes_mem fuel (release done h) p = Done (release (cells ++ done) h).
Proof.
  induction l as [| n l IH]; intros p cells done fuel Hc Hnd Hdis Hfuel.
  - destruct Hc as [-> ->]. destruct fuel; reflexivity.
  - destruct Hc as (a & ka & next & cells' & -> & -> & Ha & Hka & Hrest).
    destruct fuel as [| fuel]; [cbn in Hfuel; lia |].
    apply NoDup_cons in Hnd as [Ha_ka Hnd]. apply NoDup_cons in Hnd as [Hka_in Hnd].
    assert (Ha_done : a ∉ done) by (apply Hdis; left).
    assert (Hka_done : ka ∉ done) by (apply Hdis; right; left).
    cbn [_HT_destroy_nodes_mem]. unfold load_node, load.
    rewrite (release_outside _ _ _ Ha_done), Ha. cbn [mbind outcome_bind fst snd].
    rewrite (free_release _ _ _ _ Hka Hka_done). cbn [mbind outcome_bind].
    rewrite (free_release _ _ _ _ Ha).
    2: { intros [-> | Hin]%elem_of_cons; [apply Ha_ka; left | contradiction]. }
    cbn [mbind outcome_bind].
    rewrite (IH next cells' (a :: ka :: done) fuel Hrest Hnd).
    + f_equal. apply release_ext. intros c.
      rewrite !elem_of_app, !elem_of_cons. tauto.
    + intros c Hin [-> | [-> | Hd]%elem_of_cons]%elem_of_cons.
      * apply Ha_ka. now right.
      * contradiction.
      * apply (Hdis c); [now do 2 right | exact Hd].
    + cbn in Hfuel. lia.
Qed.

Lemma chain_at_null h l cells : chain_at h None l cells -> l = [] /\ cells = [].
Proof.
  destruct l as [| n l]; cbn.
  - intros [_ ->]. auto.
  - intros (a & ka & next & cells' & Hp & _). discriminate.
Qed.

Lemma NoDup_concat_at (cellss : list (list nat)) i cells :
  NoDup (concat cellss) -> cellss !! i = Some cells ->
  NoDup cells /\ forall c, c ∈ cells -> c ∉ concat (take i cellss).
Proof.
  intros Hnd Hi. rewrite <- (take_drop_middle _ _ _ Hi) in Hnd.
  rewrite concat_app in Hnd. cbn [concat] in Hnd.
  apply NoDup_app in Hnd as (_ & Hdis & Hnd).
  apply NoDup_app in Hnd as (Hnd & _ & _). split; [exact Hnd |].
  intros c Hc Hin. apply (Hdis c Hin). apply elem_of_app. now left.
Qed.

Lemma elem_of_concat_lookup (cellss : list (list nat)) (c : nat) :
  c ∈ concat cellss <-> exists i cells, cellss !! i = Some cells /\ c ∈ cells.
Proof.
  induction cellss as [| cells0 cellss IH]; cbn [concat].
  - split; [inversion 1 | intros (i & cells & Hi & _); discriminate].
  - rewrite elem_of_app, IH. split.
    + intros [Hin | (i & cells & Hi & Hin)].
      * exists 0%nat, cells0. auto.
      * exists (S i), cells. auto.
    + intros ([| i] & cells & Hi & Hin); cbn in Hi.
      * injection Hi as <-. now left.
      * right. eauto.
Qed.

Lemma HT_destroy_loop_spec h p t arr cellss :
  table_at h p t arr cellss ->
  Z.of_nat (length (nodes t)) <= INT_MAX ->
  forall remaining i,
    (i + remaining = length (nodes t))%nat ->
    HT_destroy_loop (release (concat (take i cellss)) h) p remaining (Z.of_nat i)
    = Done (release (concat cellss) h).
Proof.
  intros (slots & Hp & Harr & Hslots & Hcells & Hchains & Hnd) Hmax.
  apply NoDup_cons in Hnd as [Hp_out Hnd]. apply NoDup_cons in Hnd as [Harr_out Hnd].
  induction remaining as [| r IH]; intros i Hi.
  - cbn. rewrite take_ge by lia. reflexivity.
  - destruct (lookup_lt_is_Some_2 slots i) as [q Hq]; [lia |].
    destruct (lookup_lt_is_Some_2 (nodes t) i) as [l Hl]; [lia |].
    destruct (lookup_lt_is_Some_2 cellss i) as [cells Hc]; [lia |].
    pose proof (Hchains _ _ _ _ Hq Hl Hc) as Hchain.
    destruct (NoDup_concat_at _ _ _ Hnd Hc) as [Hnd_cells Hdis].
    assert (Hsub : forall c, c ∈ concat (take i cellss) -> c ∈ concat cellss).
    { intros c Hin. rewrite <- (take_drop i cellss), concat_app.
      apply elem_of_app. now left. }
    assert (Hp_done : p ∉ concat (take i cellss)).
    { intros Hin. apply Hp_out. right. now apply Hsub. }
    assert (Harr_done : arr ∉ concat (take i cellss)).
    { intros Hin. apply Harr_out. now apply Hsub. }
    assert (Hnext : release (cells ++ concat (take i cellss)) h
                    = release (concat (take (S i) cellss)) h).
    { apply release_ext. intros c.
      rewrite (take_S_r _ _ _ Hc), concat_app. cbn [concat].
      rewrite app_nil_r, !elem_of_app. tauto. }
    cbn [HT_destroy_loop]. unfold load_table, load_slot, load_array, load.
    rewrite (release_outside _ _ _ Hp_done), Hp. cbn [mbind outcome_bind fst snd].
    rewrite (release_outside _ _ _ Harr_done), Harr. cbn [mbind outcome_bind].
    rewrite Nat2Z.id, Hq. cbn [mbind outcome_bind].
    rewrite int_incr_ok by lia. cbn [lift_result].
    replace (Z.of_nat i + 1) with (Z.of_nat (S i)) by lia.
    destruct q as [a |].
    + rewrite release_length.
      rewrite (_HT_destroy_nodes_mem_spec h l (Some a) cells _ _ Hchain Hnd_cells Hdis).
      * cbn [mbind outcome_bind]. rewrite Hnext. apply IH. lia.
      * destruct (chain_at_cells _ _ _ _ Hchain) as [Hlen Hlt].
        pose proof (NoDup_bounded_length _ _ Hnd_cells Hlt). lia.
    + cbn [mbind outcome_bind].
      destruct (chain_at_null _ _ _ Hchain) as [_ ->].
      cbn [app] in Hnext. rewrite Hnext. apply IH. lia.
Qed.

(** [HT_destroy] releases the struct and the blocks of the chains. *)
Lemma HT_destroy_mem_run h p arr t cellss :
  table_at h p t arr cellss ->
  0 <= capacity t <= INT_MAX ->
  length (nodes t) = Z.to_nat (capacity t) ->
  HT_destroy_mem h p = Done (release (p :: concat cellss) h).
Proof.
  intros Ht Hcap Hlen. pose proof Ht as (slots & Hp & Harr & Hslots & Hcells & Hchains & Hnd).
  assert (Hmax : Z.of_nat (length (nodes t)) <= INT_MAX) by lia.
  pose proof (HT_destroy_loop_spec h p t arr cellss Ht Hmax (length (nodes t)) 0 eq_refl) as Hloop.
  rewrite take_0 in Hloop. cbn [concat] in Hloop. rewrite release_nil in Hloop.
  apply NoDup_cons in Hnd as [Hp_out _].
  assert (Hp_cells : p ∉ concat cellss) by (intros Hin; apply Hp_out; now right).
  unfold HT_destroy_mem, load_table, load. rewrite Hp. cbn [mbind outcome_bind fst snd].
  rewrite <- Hlen. change (Z.of_nat 0) with 0 in Hloop. rewrite Hloop.
  cbn [mbind outcome_bind]. exact (free_release _ _ _ _ Hp Hp_cells).
Qed.

(** *** Construction and insertion in memory *)

Lemma concat_insert_perm (cellss : list (list nat)) b cells new :
  cellss !! b = Some cells ->
  concat (<[b := (new ++ cells)%list]> cellss) ≡ₚ (new ++ concat cellss)%list.
Proof.
  intros Hb. rewrite insert_take_drop by (now apply lookup_lt_Some in Hb).
  rewrite <- (take_drop_middle cellss b cells Hb) at 3.
  rewrite !concat_app. cbn [concat]. rewrite <- !app_assoc.
  apply Permutation_app_swap_app.
Qed.

Lemma table_at_cells_bounded h p t arr cellss :
  table_at h p t arr cellss ->
  (p < length h)%nat /\ (arr < length h)%nat /\
  forall c, c ∈ concat cellss -> (c < length h)%nat.
Proof.
  intros (slots & Hp & Harr & Hslots & Hcells & Hchains & Hnd).
  split; [now apply lookup_lt_Some in Hp |].
  split; [now apply lookup_lt_Some in Harr |].
  intros c (i & cells & Hi & Hc)%elem_of_concat_lookup.
  destruct (lookup_lt_is_Some_2 slots i) as [q Hq];
    [apply lookup_lt_Some in Hi; lia |].
  destruct (lookup_lt_is_Some_2 (nodes t) i) as [l Hl];
    [apply lookup_lt_Some in Hi; lia |].
  destruct (chain_at_cells _ _ _ _ (Hchains _ _ _ _ Hq Hl Hi)) as [_ Hb].
  now apply Hb.
Qed.

(** X19. [HT_destroy] on a table in memory: it returns without an invalid
    access or a double [free]; it frees the struct, every node and every key
    string of every chain; it leaves every other block as it was, and among
    them the array of the slots, which it never frees. *)
Theorem HT_destroy_mem_leaks_the_array
    (h : list (option block)) (p arr : nat) (t : HT_Ht) (cellss : list (list nat)) :
  table_at h p t arr cellss ->
  0 <= capacity t <= INT_MAX ->
  length (nodes t) = Z.to_nat (capacity t) ->
  exists h' slots,
    HT_destroy_mem h p = Done h' /\
    length h' = length h /\
    h' !! p = Some None /\
    (forall c, c ∈ concat cellss -> h' !! c = Some None) /\
    h' !! arr = Some (Some (BArray slots)) /\
    (forall c, c <> p -> c ∉ concat cellss -> h' !! c = h !! c).
Proof.
  intros Ht Hcap Hlen. pose proof Ht as (slots & Hp & Harr & Hslots & Hcells & Hchains & Hnd).
  destruct (table_at_cells_bounded _ _ _ _ _ Ht) as (_ & _ & Hbound).
  apply NoDup_cons in Hnd as [Hp_out Hnd]. apply NoDup_cons in Hnd as [Harr_out Hnd].
  exists (release (p :: concat cellss) h), slots.
  split; [exact (HT_destroy_mem_run h p arr t cellss Ht Hcap Hlen) |].
  split; [apply release_length |]. split; [| split; [| split]].
  - apply (release_inside _ _ _ _ (list_elem_of_here _ _) Hp).
  - intros c Hc.
    destruct (lookup_lt_is_Some_2 h c (Hbound c Hc)) as [b Hb].
    apply (release_inside _ _ _ b); [now right | exact Hb].
  - rewrite release_outside; [exact Harr |].
    intros [-> | Hin]%elem_of_cons; [apply Hp_out; left | contradiction].
  - intros c Hc Hout. apply release_outside.
    intros [-> | Hin]%elem_of_cons; contradiction.
Qed.

Lemma HT_create_mem_heap h size :
  size <= INT_MAX ->
  HT_create_mem h size =
  Done (length h,
        (h ++ [Some (BTable size (S (length h)));
               Some (BArray (replicate (Z.to_nat size) None))])%list).
Proof.
  intros Hs. unfold HT_create_mem, malloc, store.
  rewrite <- app_assoc. cbn [app].
  rewrite list_lookup_middle by reflexivity. cbn [mbind outcome_bind].
  rewrite insert_app_r_alt by lia. rewrite Nat.sub_diag.
  rewrite length_app.
  destruct (INT_MAX <? size) eqn:E; [apply Z.ltb_lt in E; lia |].
  cbn. now rewrite Nat.add_1_r.
Qed.

Section MemoryFacts.
Context `{Platform}.

Lemma HT_add_mem_heap h p c arr slots k v hash_val q :
  h !! p = Some (Some (BTable c arr)) ->
  h !! arr = Some (Some (BArray slots)) ->
  HT_hash k (to_int c) = Ok hash_val ->
  slots !! Z.to_nat hash_val = Some q ->
  HT_add_mem h p k v =
  Done (<[arr := Some (BArray (<[Z.to_nat hash_val := Some (length h)]> slots))]> h
        ++ [Some (BNode q (S (length h)) v); Some (BString k)])%list.
Proof.
  intros Hp Harr Hhash Hq.
  pose proof (lookup_lt_Some _ _ _ Harr) as Hlt.
  unfold HT_add_mem, load_table, load. rewrite Hp. cbn [mbind outcome_bind fst snd].
  rewrite Hhash. cbn [lift_result mbind outcome_bind]. unfold malloc.
  rewrite <- app_assoc. cbn [app].
  unfold load_slot, load_array, load.
  rewrite lookup_app_l, Harr by exact Hlt. cbn [mbind outcome_bind].
  rewrite Hq. cbn [mbind outcome_bind]. unfold store.
  rewrite list_lookup_middle by reflexivity. cbn [mbind outcome_bind].
  rewrite insert_app_r_alt by lia. rewrite Nat.sub_diag.
  cbn [insert list_insert].
  rewrite lookup_app_l, Harr by exact Hlt. cbn [mbind outcome_bind].
  rewrite insert_app_l by exact Hlt.
  rewrite length_app, strcpy_eq. cbn. now rewrite Nat.add_1_r.
Qed.

Lemma HT_add_mem_table h p t arr cellss k v head cells :
  table_at h p t arr cellss ->
  HT_valid t ->
  nodes t !! Z.to_nat (slot t k) = Some head ->
  cellss !! Z.to_nat (slot t k) = Some cells ->
  exists h',
    HT_add_mem h p k v = Done h' /\
    table_at h' p (set_bucket t (slot t k) ({| key := k; value := v |} :: head)) arr
      (<[Z.to_nat (slot t k) := length h :: S (length h) :: cells]> cellss) /\
    length h' = (length h + 2)%nat /\
    forall c, (c < length h)%nat -> c <> arr -> h' !! c = h !! c.
Proof.
  intros Ht Hv Hh Hc.
  destruct (table_at_cells_bounded _ _ _ _ _ Ht) as (Hp_lt & Harr_lt & Hcells_lt).
  destruct Ht as (slots & Hp & Harr & Hslots & Hcells & Hchains & Hnd).
  destruct (lookup_lt_is_Some_2 slots (Z.to_nat (slot t k))) as [q Hq];
    [apply lookup_lt_Some in Hh; lia |].
  set (b := Z.to_nat (slot t k)) in *.
  set (slots' := <[b := Some (length h)]> slots).
  set (h' := (<[arr := Some (BArray slots')]> h
              ++ [Some (BNode q (S (length h)) v); Some (BString k)])%list).
  assert (Hsame : forall c, (c < length h)%nat -> c <> arr -> h' !! c = h !! c).
  { intros c Hlt Hne. unfold h'.
    rewrite lookup_app_l by (now rewrite length_insert).
    now rewrite list_lookup_insert_ne by congruence. }
  assert (Hparr : p <> arr).
  { intros ->. apply NoDup_cons in Hnd as [Hin _]. apply Hin. left. }
  exists h'. split.
  { exact (HT_add_mem_heap h p _ arr slots k v _ q Hp Harr (HT_hash_slot _ _ Hv) Hq). }
  split; [| split; [| exact Hsame]].
  2: { unfold h'. rewrite length_app, length_insert. reflexivity. }
  exists slots'. split; [| split; [| split; [| split; [| split]]]].
  - rewrite Hsame by assumption. exact Hp.
  - unfold h'. rewrite lookup_app_l by (now rewrite length_insert).
    now rewrite list_lookup_insert_eq.
  - unfold slots'. cbn. now rewrite !length_insert.
  - cbn. now rewrite !length_insert.
  - intros i q' l' cells' Hq' Hl' Hc'. unfold slots' in Hq'. cbn in Hl'.
    assert (Hframe : forall q0 l0 cells0 i0,
              cellss !! i0 = Some cells0 -> chain_at h q0 l0 cells0 ->
              chain_at h' q0 l0 cells0).
    { intros q0 l0 cells0 i0 Hi0 Hch. apply (chain_at_frame h); [exact Hch |].
      intros c Hin.
      assert (Hcin : c ∈ concat cellss) by (apply elem_of_concat_lookup; eauto).
      apply Hsame; [now apply Hcells_lt |].
      intros ->. apply NoDup_cons in Hnd as [_ Hnd].
      apply NoDup_cons in Hnd as [Hout _]. contradiction. }
    destruct (decide (b = i)) as [<- | Hne].
    + rewrite list_lookup_insert_eq in Hq' by (apply lookup_lt_Some in Hq; exact Hq).
      rewrite list_lookup_insert_eq in Hl' by (apply lookup_lt_Some in Hh; exact Hh).
      rewrite list_lookup_insert_eq in Hc' by (apply lookup_lt_Some in Hc; exact Hc).
      injection Hq' as <-. injection Hl' as <-. injection Hc' as <-.
      exists (length h), (S (length h)), q, cells.
      split; [reflexivity |]. split; [reflexivity |]. split; [| split].
      * unfold h'. rewrite lookup_app_r by (now rewrite length_insert).
        now rewrite length_insert, Nat.sub_diag.
      * unfold h'. rewrite lookup_app_r by (rewrite length_insert; lia).
        rewrite length_insert. now replace (S (length h) - length h)%nat with 1%nat by lia.
      * apply (Hframe _ _ _ b Hc). exact (Hchains _ _ _ _ Hq Hh Hc).
    + rewrite list_lookup_insert_ne in Hq' by exact Hne.
      rewrite list_lookup_insert_ne in Hl' by exact Hne.
      rewrite list_lookup_insert_ne in Hc' by exact Hne.
      apply (Hframe _ _ _ i Hc'). exact (Hchains _ _ _ _ Hq' Hl' Hc').
  - change (length h :: S (length h) :: cells)
      with ([length h; S (length h)] ++ cells)%list.
    assert (Hperm : p :: arr :: concat (<[b := ([length h; S (length h)] ++ cells)%list]> cellss)
                    ≡ₚ length h :: S (length h) :: p :: arr :: concat cellss).
    { rewrite (concat_insert_perm _ _ _ _ Hc).
      exact (Permutation_app_swap_app [p; arr] [length h; S (length h)] (concat cellss)). }
    rewrite Hperm.
    assert (Hold : forall c, c ∈ p :: arr :: concat cellss -> (c < length h)%nat).
    { intros c [-> | [-> | Hin]%elem_of_cons]%elem_of_cons; auto. }
    apply NoDup_cons. split.
    { intros [E | Hin]%elem_of_cons; [lia |]. specialize (Hold _ Hin). lia. }
    apply NoDup_cons. split; [| exact Hnd].
    intros Hin. specialize (Hold _ Hin). lia.
Qed.

End MemoryFacts.

Lemma concat_replicate_nil (n : nat) : concat (replicate n ([] : list nat)) = [].
Proof. induction n as [| n IH]; cbn; [reflexivity | exact IH]. Qed.

Lemma HT_create_mem_table h size :
  table_at
    (h ++ [Some (BTable size (S (length h)));
           Some (BArray (replicate (Z.to_nat size) None))])%list
    (length h)
    {| capacity := size; nodes := replicate (Z.to_nat size) [] |}
    (S (length h))
    (replicate (Z.to_nat size) []).
Proof.
  exists (replicate (Z.to_nat size) None). cbn [capacity nodes].
  split; [now apply list_lookup_middle |].
  split.
  { rewrite lookup_app_r by lia.
    now replace (S (length h) - length h)%nat with 1%nat by lia. }
  split; [now rewrite !length_replicate |].
  split; [now rewrite !length_replicate |].
  split.
  - intros i q l cells Hq Hl Hc.
    apply lookup_replicate in Hq as [-> _]. apply lookup_replicate in Hl as [-> _].
    apply lookup_replicate in Hc as [-> _]. split; reflexivity.
  - rewrite concat_replicate_nil.
    apply NoDup_cons. split; [intros [E | Hin]%elem_of_cons; [lia | inversion Hin] |].
    apply NoDup_singleton.
Qed.

(** X20. [HT_create] in memory, for a size up to [INT_MAX] (beyond it the
    [int] counter of the loop overflows): on any heap it allocates two
    blocks, the struct and the array of null slots, touches no block that
    was there, and what it leaves is the table that [HT_create] returns in
    the list model. *)
Theorem HT_create_mem_builds_the_table (h : list (option block)) (size : Z) :
  0 <= size <= INT_MAX ->
  exists t p h',
    HT_create size = Ok t /\
    HT_create_mem h size = Done (p, h') /\
    p = length h /\
    length h' = (length h + 2)%nat /\
    take (length h) h' = h /\
    table_at h' p t (S p) (replicate (Z.to_nat size) []).
Proof.
  intros Hs. eexists. exists (length h). eexists.
  split; [apply HT_create_ok; lia |]. split; [apply HT_create_mem_heap; lia |].
  split; [reflexivity |]. split; [rewrite length_app; reflexivity |].
  split; [now rewrite take_app_length | apply HT_create_mem_table].
Qed.

Lemma HT_create_mem_builds_the_table_witness :
  exists t p h',
    HT_create 3 = Ok t /\
    HT_create_mem demo_heap 3 = Done (p, h') /\
    p = length demo_heap /\
    length h' = (length demo_heap + 2)%nat /\
    take (length demo_heap) h' = demo_heap /\
    table_at h' p t (S p) (replicate (Z.to_nat 3) []).
Proof.
  apply (HT_create_mem_builds_the_table demo_heap 3).
  unfold INT_MAX. lia.
Defined.

(** X21. [HT_add] in memory on a table that is in memory: it allocates two
    blocks, the node and the copy of the key, frees none, writes to no
    earlier block but the array of the slots, and what it leaves is the
    table that [HT_add] returns in the list model. *)
Theorem HT_add_mem_refines `{Platform}
    (h : list (option block)) (p arr : nat) (t : HT_Ht)
    (cellss : list (list nat)) (k : string) (v : Z) :
  table_at h p t arr cellss ->
  HT_valid t ->
  exists t' h' cellss',
    HT_add t k v = Ok t' /\
    HT_add_mem h p k v = Done h' /\
    table_at h' p t' arr cellss' /\
    length h' = (length h + 2)%nat /\
    forall c, (c < length h)%nat -> c <> arr -> h' !! c = h !! c.
Proof.
  intros Ht Hv. destruct (slot_allocated t k Hv) as [head Hh].
  assert (Hcells : length cellss = length (nodes t))
    by (destruct Ht as (slots & _ & _ & _ & Hc & _); exact Hc).
  destruct (lookup_lt_is_Some_2 cellss (Z.to_nat (slot t k))) as [cells Hc];
    [apply lookup_lt_Some in Hh; lia |].
  destruct (HT_add_mem_table h p t arr cellss k v head cells Ht Hv Hh Hc)
    as (h' & Hadd & Ht' & Hlen & Hsame).
  eexists. exists h'. eexists.
  split; [exact (HT_add_slot _ _ _ _ Hv Hh) |]. eauto.
Qed.

Lemma demo_heap_table_at : table_at demo_heap 0 demo_heap_table 1 [[4; 5; 2; 3]]%nat.
Proof.
  exists [Some 4%nat]. repeat split; try reflexivity.
  - intros [| i] q l cells Hq Hl Hc; cbn in *; [| discriminate].
    injection Hq as <-. injection Hl as <-. injection Hc as <-.
    exists 4%nat, 5%nat, (Some 2%nat), [2; 3]%nat. repeat split.
    exists 2%nat, 3%nat, None, []. repeat split.
  - apply (bool_decide_unpack _). vm_compute. exact I.
Qed.

Lemma HT_add_mem_refines_witness :
  exists t' h' cellss',
    @HT_add signed_char_platform demo_heap_table "c" 3 = Ok t' /\
    @HT_add_mem signed_char_platform demo_heap 0 "c" 3 = Done h' /\
    table_at h' 0 t' 1 cellss' /\
    length h' = (length demo_heap + 2)%nat /\
    forall c, (c < length demo_heap)%nat -> c <> 1%nat -> h' !! c = demo_heap !! c.
Proof.
  apply (@HT_add_mem_refines signed_char_platform demo_heap 0 1 demo_heap_table
           [[4; 5; 2; 3]]%nat "c" 3).
  - exact demo_heap_table_at.
  - split; [unfold UINT_MAX; cbn; lia | reflexivity].
Defined.

Lemma HT_destroy_mem_leaks_the_array_witness :
  exists h' slots,
    HT_destroy_mem demo_heap 0 = Done h' /\
    length h' = length demo_heap /\
    h' !! 0%nat = Some None /\
    (forall c, c ∈ concat [[4; 5; 2; 3]]%nat -> h' !! c = Some None) /\
    h' !! 1%nat = Some (Some (BArray slots)) /\
    (forall c, c <> 0%nat -> c ∉ concat [[4; 5; 2; 3]]%nat -> h' !! c = demo_heap !! c).
Proof.
  apply (HT_destroy_mem_leaks_the_array demo_heap 0 1 demo_heap_table
           [[4; 5; 2; 3]]%nat).
  - exact demo_heap_table_at.
  - unfold INT_MAX. cbn. lia.
  - reflexivity.
Defined.

(** *** Removal in memory *)









Section RemoveMemory.
Context `{Platform}.


End RemoveMemory.



(** ** The parity of the hash *)

Lemma mod_even_mod_2 x m : 0 < m -> Z.even m = true -> (x mod m) mod 2 = x mod 2.
Proof.
  intros Hm He. apply Z.mod_mod_divide.
  apply Z.even_spec in He as [m' ->]. exists m'. ring.
Qed.

Lemma horner_step_parity hashval c : horner_step hashval c mod 2 = (c + hashval) mod 2.
Proof.
  unfold horner_step. rewrite mod_even_mod_2 by (cbn; lia || reflexivity).
  replace (c + 31 * hashval) with (c + hashval + 15 * hashval * 2) by ring.
  now rewrite Z.mod_add by lia.
Qed.


Section Parity.
Context `{Platform}.



Lemma HT_hash_loop_parity key hashval :
  HT_hash_loop key hashval mod 2 = (hashval + key_sum key) mod 2.
Proof.
  revert hashval. induction key as [| c key IH]; intros hashval.
  - cbn. now rewrite Z.add_0_r.
  - cbn [HT_hash_loop]. rewrite IH, hash_step_horner.
    unfold key_sum. cbn [list_ascii_of_string map foldr]. fold (key_sum key).
    rewrite Z.add_mod, horner_step_parity, <- Z.add_mod by lia.
    f_equal. ring.
Qed.


End Parity.

(** X23. With an even number of buckets, whether the index [HT_hash] returns
    is even or odd is decided by the sum of the characters of the key
    alone; with two buckets the index is the parity of that sum. *)
Theorem HT_hash_even_capacity_parity `{Platform} (k : string) (c : Z) :
  0 < c <= INT_MAX -> Z.even c = true ->
  exists h,
    HT_hash k c = Ok h /\
    h mod 2 = key_sum k mod 2 /\
    (c = 2 -> h = key_sum k mod 2).
Proof.
  intros Hc He.
  assert (Hu : to_uint c = c)
    by (apply to_uint_small; unfold INT_MAX, UINT_MAX in *; lia).
  unfold HT_hash. rewrite Hu. destruct (Z.eqb_spec c 0); [lia |].
  eexists. split; [reflexivity |].
  assert (Hpar : (HT_hash_loop k 0 mod c) mod 2 = key_sum k mod 2).
  { rewrite mod_even_mod_2 by (lia || exact He).
    now rewrite HT_hash_loop_parity. }
  split; [exact Hpar |].
  intros ->. rewrite <- Hpar. symmetry. apply Z.mod_small.
  apply Z.mod_pos_bound. lia.
Qed.

Lemma HT_hash_even_capacity_parity_witness :
  exists h,
    @HT_hash signed_char_platform "bob" 10 = Ok h /\
    h mod 2 = @key_sum signed_char_platform "bob" mod 2 /\
    (10 = 2 -> h = @key_sum signed_char_platform "bob" mod 2).
Proof.
  apply (@HT_hash_even_capacity_parity signed_char_platform "bob" 10).
  - unfold INT_MAX. lia.
  - reflexivity.
Defined.


